(** * Lifegame: a shallow embedding of [main.go] and its verification

    The Go program keeps a rectangular grid of cells ([Field]) and a pair
    of such grids ([Life]) that it advances generation by generation.
    [main.go] holds three revisions of the program; the embedding follows
    the first one, the only one with the loader, function by function, and
    the modules [Rev2] and [Rev3] hold what the two others do differently:

    - Go's [int] is a 64-bit two's-complement integer, modelled as [Z]
      with the wrap-around written out ([wrap]); [%] is Go's truncated
      remainder ([Z.rem]) and panics on a zero divisor;
    - a slice is a list; indexing outside the slice is a run-time panic;
    - a method with a pointer receiver is a computation in a small
      state-and-panic monad whose state is the receiver;
    - a Go [error] result is either [nil] or a message. *)

From Stdlib Require Import ZArith Lia Strings.String Strings.Byte DecimalString.
From stdpp Require Import base list.
From Equations Require Import Equations.

Local Open Scope Z_scope.

(** ** Run-time model *)

Inductive panic : Type :=
| IndexOutOfRange   (* runtime error: index out of range *)
| DivideByZero      (* runtime error: integer divide by zero *)
| MakesliceLen.     (* runtime error: makeslice: len out of range *)

Inductive result (A : Type) : Type :=
| Ok (a : A)
| Panic (p : panic).
Arguments Ok {A} a.
Arguments Panic {A} p.

(** A Go [error] value: [None] is [nil], [Some msg] is [errors.New(msg)]
    (or [io.EOF], whose message is ["EOF"]). *)
Definition error : Type := option string.

(** The two shapes a [(T, error)] result takes in this program:
    [(v, nil)] and [(nil, err)]. *)
Inductive ret_err (A : Type) : Type :=
| Value (a : A)
| Error (msg : string).
Arguments Value {A} a.
Arguments Error {A} msg.

(** *** 64-bit integers *)

Definition int_min : Z := -9223372036854775808.
Definition int_max : Z := 9223372036854775807.
Definition int_mod : Z := 18446744073709551616.

Definition is_int (z : Z) : Prop := int_min <= z <= int_max.

Definition wrap (z : Z) : Z := (z - int_min) mod int_mod + int_min.

Definition int_add (a b : Z) : Z := wrap (a + b).

(** [a % b] *)
Definition int_rem (a b : Z) : result Z :=
  if b =? 0 then Panic DivideByZero else Ok (Z.rem a b).

(** *** Slices *)

(** No slice is longer than the allocator's limit ([maxAlloc], 2^48 bytes
    on the 64-bit targets): [make] panics beyond it and for a negative
    length.  The model uses this one bound for every element type and does
    not model the exhaustion of memory. *)
Definition max_len : Z := 281474976710656.

Definition make {A : Type} (zero : A) (n : Z) : result (list A) :=
  if (n <? 0) || (max_len <? n) then Panic MakesliceLen
  else Ok (replicate (Z.to_nat n) zero).

Definition len {A : Type} (l : list A) : Z := Z.of_nat (length l).

(** [l[i]] *)
Definition index {A : Type} (l : list A) (i : Z) : result A :=
  if i <? 0 then Panic IndexOutOfRange
  else match l !! Z.to_nat i with
       | Some x => Ok x
       | None => Panic IndexOutOfRange
       end.

(** *** The state-and-panic monad *)

Definition M (S A : Type) : Type := S -> result (A * S).

Definition ret {S A : Type} (a : A) : M S A := fun s => Ok (a, s).

Definition bind {S A B : Type} (m : M S A) (k : A -> M S B) : M S B :=
  fun s => match m s with
           | Ok (a, s') => k a s'
           | Panic p => Panic p
           end.

Definition get {S : Type} : M S S := fun s => Ok (s, s).

Definition put {S : Type} (s : S) : M S unit := fun _ => Ok (tt, s).

(** A pure computation that may panic. *)
Definition lift {S A : Type} (r : result A) : M S A :=
  fun s => match r with
           | Ok a => Ok (a, s)
           | Panic p => Panic p
           end.

Notation "'let*' x ':=' m 'in' k" := (bind m (fun x => k))
  (at level 10, x name, m at level 100, k at level 200).
Notation "m ';;;' k" := (bind m (fun _ => k))
  (at level 100, k at level 200, right associativity).

(** [for i := lo; i <= hi; i++ { acc = body i acc }] *)
Fixpoint for_from {S A : Type} (n : nat) (i : Z) (acc : A)
    (body : Z -> A -> M S A) : M S A :=
  match n with
  | O => ret acc
  | Datatypes.S n' => let* acc' := body i acc in for_from n' (i + 1) acc' body
  end.

Definition for_int {S A : Type} (lo hi : Z) (acc : A)
    (body : Z -> A -> M S A) : M S A :=
  for_from (Z.to_nat (hi + 1 - lo)) lo acc body.

(** [for i, x := range l { body i x }] *)
Fixpoint range_from {S A : Type} (i : Z) (l : list A)
    (body : Z -> A -> M S unit) : M S unit :=
  match l with
  | [] => ret tt
  | x :: l' => body i x ;;; range_from (i + 1) l' body
  end.

Definition for_range {S A : Type} (l : list A)
    (body : Z -> A -> M S unit) : M S unit :=
  range_from 0 l body.

(** ** Field *)

(** The rows that [NewField] allocates are distinct arrays, and [Set] is
    only ever applied to such a field ([l.next]), so a field is modelled by
    its value. *)
Record Field : Type := mkField {
  cs : list (list bool);  (* field's memory *)
  w : Z;                  (* field's width *)
  h : Z                   (* field's height *)
}.

(** [NewField(h, w)]: [h] rows of [w] dead cells each. *)
Definition NewField (h w : Z) : result Field :=
  match make ([] : list bool) h with
  | Panic p => Panic p
  | Ok cs0 =>
      match for_range cs0
              (fun i _ =>
                 let* cs1 := get in
                 let* row := lift (make false w) in
                 let* _ := lift (index cs1 i) in
                 put (<[Z.to_nat i := row]> cs1)) cs0 with
      | Panic p => Panic p
      | Ok (_, cs1) => Ok {| cs := cs1; w := w; h := h |}
      end
  end.

(** [f.Set(r, c, b)]: a bounds-checked write; no wrap-around. *)
Definition Set_ (r c : Z) (b : bool) : M Field error :=
  let* f := get in
  if (r <? 0) || (r >=? h f) || (c <? 0) || (c >=? w f)
  then ret (Some "out of field"%string)
  else
    let* row := lift (index (cs f) r) in
    let* _ := lift (index row c) in
    put {| cs := <[Z.to_nat r := <[Z.to_nat c := b]> row]> (cs f);
           w := w f; h := h f |} ;;;
    ret None.

(** [f.Alive(r, c)]: a read with one period of wrap-around. *)
Definition Alive (r c : Z) : M Field bool :=
  let* f := get in
  let* r' := lift (int_rem (int_add r (h f)) (h f)) in
  let* c' := lift (int_rem (int_add c (w f)) (w f)) in
  let* row := lift (index (cs f) r') in
  lift (index row c').

(** [f.NextGen(r, c)] *)
Definition NextGen (r c : Z) : M Field bool :=
  let* alive :=
    for_int (-1) 1 0 (fun i alive =>
      for_int (-1) 1 alive (fun j alive =>
        if negb (i =? 0) || negb (j =? 0) then
          let* a := Alive (int_add r i) (int_add c j) in
          ret (if a then int_add alive 1 else alive)
        else ret alive)) in
  if alive =? 3 then ret true
  else if alive =? 2 then Alive r c
  else ret false.

(** ** Life *)

Record Life : Type := mkLife {
  cur : Field;
  next : Field;
  gen : Z
}.

(** Run a [Field] method on [l.cur], respectively [l.next]. *)
Definition on_cur {A : Type} (m : M Field A) : M Life A :=
  fun l => match m (cur l) with
           | Ok (a, f) => Ok (a, {| cur := f; next := next l; gen := gen l |})
           | Panic p => Panic p
           end.

Definition on_next {A : Type} (m : M Field A) : M Life A :=
  fun l => match m (next l) with
           | Ok (a, f) => Ok (a, {| cur := cur l; next := f; gen := gen l |})
           | Panic p => Panic p
           end.

(** [cur.cs = init] *)
Definition set_cs (f : Field) (init : list (list bool)) : Field :=
  {| cs := init; w := w f; h := h f |}.

(** [NewLife(h, w, init)]: both buffers are allocated before the size of
    [init] is looked at, and [init[0]] is read whenever the number of rows
    matches. *)
Definition NewLife (h w : Z) (init : list (list bool)) : result (ret_err Life) :=
  match NewField h w with
  | Panic p => Panic p
  | Ok cur0 =>
      match NewField h w with
      | Panic p => Panic p
      | Ok next0 =>
          if negb (len init =? h) then Ok (Error "Wrong init size")
          else
            match index init 0 with
            | Panic p => Panic p
            | Ok row0 =>
                if negb (len row0 =? w) then Ok (Error "Wrong init size")
                else Ok (Value {| cur := set_cs cur0 init;
                                  next := next0; gen := 0 |})
            end
      end
  end.

(** [l.Next()]: the error that [Set] returns is discarded. *)
Definition Next : M Life unit :=
  let* l0 := get in
  for_range (cs (cur l0)) (fun i r =>
    for_range r (fun j _ =>
      let* b := on_cur (NextGen i j) in
      let* _ := on_next (Set_ i j b) in
      ret tt)) ;;;
  let* l1 := get in
  put {| cur := next l1; next := next l1; gen := gen l1 |} ;;;
  let* l2 := get in
  let* fresh := lift (NewField (w (cur l2)) (h (cur l2))) in
  let* l3 := get in
  put {| cur := cur l3; next := fresh; gen := gen l3 |} ;;;
  let* l4 := get in
  put {| cur := cur l4; next := next l4; gen := int_add (gen l4) 1 |}.

(** ** Loading the initial state *)

Definition newline : byte := x0a.
Definition glyph_o : byte := x6f.

(** [bytesToBool(line)]: ['o'] is alive, every other byte is dead. *)
Definition bytesToBool (line : list byte) : list bool :=
  map (fun c => Byte.eqb c glyph_o) line.

(** [reader.ReadBytes(delim)] on an in-memory reader whose state is the
    unread input: the bytes up to and including the first [delim], or all
    that is left together with [io.EOF] when there is no [delim]. *)
Fixpoint ReadBytes (delim : byte) (rd : list byte) : list byte * error * list byte :=
  match rd with
  | [] => ([], Some "EOF"%string, [])
  | b :: rd' =>
      if Byte.eqb b delim then ([b], None, rd')
      else let '(line, err, rest) := ReadBytes delim rd' in (b :: line, err, rest)
  end.

Definition inspect {A : Type} (a : A) : {b : A | a = b} := exist _ a eq_refl.

(** The [for { ... }] loop of [NewLifeFromFile]: it reads lines until the
    reader reports an error, and appends each one to [init]. *)
Equations? read_rows (colsize : Z) (init : list (list bool)) (rd : list byte)
  : ret_err (list (list bool)) by wf (length rd) lt :=
  read_rows colsize init rd with inspect (ReadBytes newline rd) := {
    | exist _ (line, Some _, rest) _ => Value init
    | exist _ (line, None, rest) E =>
        if negb (len line =? colsize)
        then Error "column size is not appropriate"
        else read_rows colsize (init ++ [bytesToBool line]) rest
  }.
Proof.
  clear read_rows. revert line rest E.
  induction rd as [|b rd IH]; intros line rest; simpl.
  - discriminate.
  - destruct (Byte.eqb b newline).
    + intros [= _ <-]. lia.
    + destruct (ReadBytes newline rd) as [[line' err'] rest'].
      intros [= _ -> ->]. specialize (IH _ _ eq_refl). lia.
Qed.

(** [ioutil.ReadFile]: the file system is a function from paths to the
    file's bytes or the error of the read. *)
Definition filesystem : Type := string -> ret_err (list byte).

(** [err != nil && err != io.EOF] *)
Definition failed_other_than_EOF (err : error) : bool :=
  match err with
  | None => false
  | Some e => negb (String.eqb e "EOF")
  end.

(** [NewLifeFromFile(path)].  The [err] that the loop assigns is a variable
    of the loop body; the test after the loop sees the [err] of the first
    read. *)
Definition NewLifeFromFile (fs : filesystem) (path : string) : result (ret_err Life) :=
  match fs path with
  | Error e => Ok (Error e)
  | Value buf =>
      (* first line *)
      let '(line, err, rest) := ReadBytes newline buf in
      match err with
      | Some e => Ok (Error e)
      | None =>
          let colsize := len line in
          let firstRow := bytesToBool line in
          match read_rows colsize ([] ++ [firstRow]) rest with
          | Error e => Ok (Error e)
          | Value init =>
              if failed_other_than_EOF err then Ok (Error (default ""%string err))
              else
                match NewLife (len init) colsize init with
                | Panic p => Panic p
                | Ok (Error e) => Ok (Error e)
                | Ok (Value l) => Ok (Value l)
                end
          end
      end
  end.

(** ** Specification-side notions *)

(** A field as [NewField] builds it: [h] rows of [w] cells, with
    dimensions that a slice can have. *)
Definition wf_field (f : Field) : Prop :=
  1 <= h f <= max_len /\ 1 <= w f <= max_len /\
  length (cs f) = Z.to_nat (h f) /\
  Forall (fun row => length row = Z.to_nat (w f)) (cs f).

Definition in_bounds (f : Field) (r c : Z) : Prop :=
  0 <= r < h f /\ 0 <= c < w f.

(** The stored state of cell [(i, j)], dead outside the grid. *)
Definition cell (f : Field) (i j : Z) : bool :=
  match cs f !! Z.to_nat i with
  | Some row => default false (row !! Z.to_nat j)
  | None => false
  end.

(** The cell that the coordinates denote on the torus. *)
Definition torus_cell (f : Field) (r c : Z) : bool :=
  cell f (r mod h f) (c mod w f).

Definition offsets8 : list (Z * Z) :=
  [(-1, -1); (-1, 0); (-1, 1); (0, -1); (0, 1); (1, -1); (1, 0); (1, 1)].

(** Number of alive cells among the eight neighbours on the torus. *)
Definition live_neighbours (f : Field) (r c : Z) : Z :=
  len (List.filter (fun d => torus_cell f (r + d.1) (c + d.2)) offsets8).

(** The rule of the game (B3/S23). *)
Definition rule (n : Z) (alive : bool) : bool :=
  (n =? 3) || ((n =? 2) && alive).

Definition in_boundsb (f : Field) (r c : Z) : bool :=
  (0 <=? r) && (r <? h f) && (0 <=? c) && (c <? w f).

(** The all-dead field of the given dimensions. *)
Definition blank (h w : Z) : Field :=
  {| cs := replicate (Z.to_nat h) (replicate (Z.to_nat w) false);
     w := w; h := h |}.

(** What one generation makes of cell [(i, j)]. *)
Definition step_cell (f : Field) (i j : Z) : bool :=
  rule (live_neighbours f i j) (cell f i j).

(** The cells that the loops of [Next] have visited when the outer loop is
    at row [k] and the inner loop at column [m]. *)
Definition visited (k m i j : Z) : bool :=
  (i <? k) || ((i =? k) && (j <? m)).

(** Invariant of the loops of [Next], started in [l0]: the current field
    and the counter are untouched, and the next field holds the new state
    of exactly the visited cells that it has room for. *)
Definition Next_inv (l0 : Life) (k m : Z) (l : Life) : Prop :=
  cur l = cur l0 /\ gen l = gen l0 /\
  wf_field (next l) /\ h (next l) = h (next l0) /\ w (next l) = w (next l0) /\
  forall i j, 0 <= i -> 0 <= j ->
    cell (next l) i j =
      if visited k m i j && in_boundsb (cur l0) i j && in_boundsb (next l0) i j
      then step_cell (cur l0) i j
      else cell (next l0) i j.

(** Concrete grids used below. *)
Definition grid3 : Field :=
  {| cs := [[true; false; false]; [false; false; false]; [false; false; true]];
     w := 3; h := 3 |}.

Definition dead2x3 : list (list bool) :=
  [[false; false; false]; [false; false; false]].

(** A 2x2 block (a still life) at the right edge of a 4x5 grid. *)
Definition block4x5 : list (list bool) :=
  [[false; false; false; false; false];
   [false; false; false; true; true];
   [false; false; false; true; true];
   [false; false; false; false; false]].

Definition ragged2x2 : list (list bool) := [[true; false]; [true]].

(** A line of the input file: some bytes other than the line terminator,
    followed by the terminator. *)
Definition is_line (l : list byte) : Prop :=
  exists body, l = body ++ [newline] /\ newline ∉ body.

(** The life that comes out of loading rows of the given width. *)
Definition loaded (rows : list (list bool)) (width : Z) : Life :=
  {| cur := {| cs := rows; w := width; h := len rows |};
     next := blank (len rows) width; gen := 0 |}.

(** Input files used below (["o o\n oo\n"] and the like). *)
Definition file_2x4 : list (list byte) :=
  [[x6f; x20; x6f; x0a]; [x20; x6f; x6f; x0a]].

Definition file_ragged : list (list byte) :=
  [[x6f; x20; x6f; x0a]; [x20; x6f; x0a]].

(** *** Patterns *)

(** The grid of the given dimensions whose cell [(i, j)] is [p i j]. *)
Definition grid (h w : Z) (p : Z -> Z -> bool) : list (list bool) :=
  map (fun i => map (fun j => p i j) (seqZ 0 w)) (seqZ 0 h).

(** The pattern that has exactly the listed cells alive. *)
Definition pattern_at (cells : list (Z * Z)) (i j : Z) : bool :=
  existsb (fun c => (c.1 =? i) && (c.2 =? j)) cells.

(** The two phases of the beacon, as [main] of the second revision sets
    the first one up. *)
Definition beacon_cells : list (Z * Z) :=
  [(1, 1); (1, 2); (2, 1); (3, 4); (4, 3); (4, 4)].

Definition beacon_full_cells : list (Z * Z) :=
  beacon_cells ++ [(2, 2); (3, 3)].

Definition beacon (n : Z) : list (list bool) :=
  grid n n (pattern_at beacon_cells).

(** Coordinates outside the 4x4 box of the beacon are all alike. *)
Definition clamp (x : Z) : Z :=
  if (1 <=? x) && (x <=? 4) then x else 0.

(** One generation of a pattern on the unbounded plane. *)
Definition plane_step (p : Z -> Z -> bool) (i j : Z) : bool :=
  rule (len (List.filter (fun d => p (i + d.1) (j + d.2)) offsets8)) (p i j).

(** ** Printing and the driver *)

(** Standard output is the sequence of bytes written so far; writes to it
    do not fail. *)
Abbreviation stdout := (list byte).

Definition space : byte := x20.

Definition write (s : list byte) : M stdout unit :=
  fun out => Ok (tt, out ++ s).

(** [fmt.Println(string(s))] *)
Definition Println (s : list byte) : M stdout unit :=
  write (s ++ [newline]).

(** Run a computation on a local variable and return the variable. *)
Definition exec {T : Type} (m : M T unit) (t : T) : result T :=
  match m t with
  | Ok (_, t') => Ok t'
  | Panic p => Panic p
  end.

(** [f.Print()]: each row is rendered into a buffer of [f.w] bytes. *)
Definition Field_Print (f : Field) : M stdout unit :=
  for_range (cs f) (fun _ r =>
    let* bufr0 := lift (make x00 (w f)) in
    let* bufr := lift (exec (for_range r (fun j c =>
                   let* buf := get in
                   let* _ := lift (index buf j) in
                   put (<[Z.to_nat j := if c : bool then glyph_o else space]> buf)))
                 bufr0) in
    Println bufr).

(** [%v] of an [int]. *)
Definition format_int (z : Z) : list byte :=
  list_byte_of_string (NilZero.string_of_int (Z.to_int z)).

(** [l.Print()].  What the [clear] command writes to the terminal is not
    the program's business and is a parameter. *)
Definition Life_Print (clear : list byte) (l : Life) : M stdout unit :=
  write clear ;;;
  write (list_byte_of_string "---------- " ++ format_int (gen l) ++
         list_byte_of_string "th generation" ++ [newline]) ;;;
  Field_Print (cur l).

(** The body of the loop of [main], [l.Print(); l.Next()], on the life and
    the standard output. *)
Definition tick (clear : list byte) : M (Life * stdout) unit :=
  fun s =>
    match Life_Print clear s.1 s.2 with
    | Panic p => Panic p
    | Ok (_, out) =>
        match Next s.1 with
        | Panic p => Panic p
        | Ok (_, l) => Ok (tt, (l, out))
        end
    end.

(** The first [k] rounds of a loop without exit. *)
Fixpoint rounds {S : Type} (k : nat) (body : M S unit) : M S unit :=
  match k with
  | O => ret tt
  | Datatypes.S k' => body ;;; rounds k' body
  end.

(** How [main] stands after [k] ticks of the timer: it has left through
    [log.Fatalf] with a message (the time stamp that [log] puts before it
    is left out), or it is in its loop with some life. *)
Inductive main_state : Type :=
| Fatal (msg : string)
| Looping (l : Life).

(** [main()], observed for [k] ticks. *)
Definition main (fs : filesystem) (clear : list byte) (k : nat) : M stdout main_state :=
  Println (list_byte_of_string "Lifegame") ;;;
  let* r := lift (NewLifeFromFile fs "init.txt") in
  match r with
  | Error e => ret (Fatal ("NewLifeFromFile: " ++ e))
  | Value l =>
      fun out =>
        match rounds k (tick clear) (l, out) with
        | Panic p => Panic p
        | Ok (_, (l', out')) => Ok (Looping l', out')
        end
  end.

(** *** Specification-side notions for the driver *)

Definition all_dead (f : Field) : Prop := forall i j, cell f i j = false.

(** The field that holds the next generation of every cell of [f]. *)
Definition step_field (f : Field) : Field :=
  {| cs := grid (h f) (w f) (step_cell f); w := w f; h := h f |}.

(** The two buffers of a life are well formed. *)
Definition wf_life (l : Life) : Prop :=
  wf_field (cur l) /\ wf_field (next l).

(** The bytes that [Field_Print] writes for one row. *)
Definition render_row (row : list bool) : list byte :=
  map (fun c : bool => if c then glyph_o else space) row ++ [newline].

Definition render (f : Field) : list byte :=
  concat (map render_row (cs f)).

(** The bytes that [Field_Print] writes for a row shorter than the width:
    the rest of the buffer keeps the zero bytes of [make]. *)
Definition glyph (c : bool) : byte := if c then glyph_o else space.

Definition render_padded (width : Z) (row : list bool) : list byte :=
  map glyph row ++ replicate (Z.to_nat width - length row) x00 ++ [newline].

(** What [main] prints in [k] ticks, starting from field [f] and counter
    [g], when every generation is computed in full. *)
Fixpoint frames (clear : list byte) (f : Field) (g : Z) (k : nat) : list byte :=
  match k with
  | O => []
  | Datatypes.S k' =>
      clear ++
      (list_byte_of_string "---------- " ++ format_int g ++
       list_byte_of_string "th generation" ++ [newline]) ++
      render f ++
      frames clear (step_field f) (int_add g 1) k'
  end.

(** ** The earlier revisions *)

(** [init[r][c] = b] on a local pattern: no bounds check of the program's
    own, the run-time one of the index expressions. *)
Definition assign (r c : Z) (b : bool) : M (list (list bool)) unit :=
  let* init := get in
  let* row := lift (index init r) in
  let* _ := lift (index row c) in
  put (<[Z.to_nat r := <[Z.to_nat c := b]> row]> init).

(** [init := make([][]bool, n); for i := range init { init[i] = make([]bool, n) }]:
    the two statements of the body of [NewField], on a local variable. *)
Definition make_pattern (n : Z) : result (list (list bool)) :=
  match NewField n n with
  | Ok f => Ok (cs f)
  | Panic p => Panic p
  end.

(** The second revision differs from the first in [NewLife], which does not
    look at the size of the pattern at all, and in [main], which builds the
    beacon itself instead of loading a file. *)
Module Rev2.

(** [NewLife(h, w, init)] *)
Definition NewLife (h w : Z) (init : list (list bool)) : result Life :=
  match NewField h w with
  | Panic p => Panic p
  | Ok cur0 =>
      match NewField h w with
      | Panic p => Panic p
      | Ok next0 => Ok {| cur := set_cs cur0 init; next := next0; gen := 0 |}
      end
  end.

(** [main()], observed for [k] ticks. *)
Definition main (clear : list byte) (k : nat) : M stdout Life :=
  Println (list_byte_of_string "Lifegame") ;;;
  let* init0 := lift (make_pattern 10) in
  let* init := lift (exec (assign 1 1 true ;;; assign 1 2 true ;;;
                           assign 2 1 true ;;; assign 3 4 true ;;;
                           assign 4 3 true ;;; assign 4 4 true) init0) in
  let* l := lift (NewLife 10 10 init) in
  fun out =>
    match rounds k (tick clear) (l, out) with
    | Panic p => Panic p
    | Ok (_, (l', out')) => Ok (l', out')
    end.

End Rev2.

(** The third revision prints from [NextGen], excludes a neighbour when
  either of its offsets is 0, and exchanges the two buffers in [Next]
  instead of allocating a new one.  After the first exchange [Next]
  writes into the rows of the pattern that [NewLife] was given; they are
  modelled by their value, as distinct arrays, which is how [main] makes
  them. *)
Module Rev3.

Definition on_field {A : Type} (m : M Field A) : M (Field * stdout) A :=
  fun s => match m s.1 with
           | Ok (a, f) => Ok (a, (f, s.2))
           | Panic p => Panic p
           end.

Definition print {S : Type} (s : list byte) : M (S * stdout) unit :=
  fun st => Ok (tt, (st.1, st.2 ++ s)).

(** [fmt.Printf("%v %v\n", r, c)] *)
Definition line_rc (r c : Z) : list byte :=
  format_int r ++ [space] ++ format_int c ++ [newline].

(** [fmt.Println(r, c, true)] *)
Definition line_rc_true (r c : Z) : list byte :=
  format_int r ++ [space] ++ format_int c ++ [space] ++
  list_byte_of_string "true" ++ [newline].

(** [f.NextGen(r, c)] *)
Definition NextGen (r c : Z) : M (Field * stdout) bool :=
  let* alive :=
    for_int (-1) 1 0 (fun i alive =>
      for_int (-1) 1 alive (fun j alive =>
        if negb (i =? 0) && negb (j =? 0) then
          let* a := on_field (Alive (int_add r i) (int_add c j)) in
          if a : bool then
            print (line_rc r c) ;;;
            ret (int_add alive 1)
          else ret alive
        else ret alive)) in
  let* state :=
    (if alive =? 3 then ret true
     else if alive =? 2 then on_field (Alive r c)
     else ret false) in
  (if state : bool then print (line_rc_true r c) else ret tt) ;;;
  ret state.

(** [NewLife(h, w, init)] *)
Definition NewLife (h w : Z) (init : list (list bool)) : result Life :=
  Rev2.NewLife h w init.

Definition on_cur {A : Type} (m : M (Field * stdout) A) : M (Life * stdout) A :=
  fun s => match m (cur s.1, s.2) with
           | Ok (a, (f, out)) =>
               Ok (a, ({| cur := f; next := next s.1; gen := gen s.1 |}, out))
           | Panic p => Panic p
           end.

Definition on_next {A : Type} (m : M Field A) : M (Life * stdout) A :=
  fun s => match m (next s.1) with
           | Ok (a, f) =>
               Ok (a, ({| cur := cur s.1; next := f; gen := gen s.1 |}, s.2))
           | Panic p => Panic p
           end.

(** [l.Next()] *)
Definition Next : M (Life * stdout) unit :=
  let* s0 := get in
  for_range (cs (cur s0.1)) (fun i r =>
    for_range r (fun j _ =>
      let* b := on_cur (NextGen i j) in
      let* _ := on_next (Set_ i j b) in
      ret tt)) ;;;
  let* s1 := get in
  put ({| cur := next s1.1; next := cur s1.1; gen := gen s1.1 |}, s1.2) ;;;
  let* s2 := get in
  put ({| cur := cur s2.1; next := next s2.1;
          gen := int_add (gen s2.1) 1 |}, s2.2).

(** [main()]: a 2x2 block on a 10x10 grid and ten generations, the call
    of [Print] being commented out. *)
Definition main : M stdout Life :=
  Println (list_byte_of_string "Lifegame") ;;;
  let* init0 := lift (make_pattern 10) in
  let* init := lift (exec (assign 1 1 true ;;; assign 1 2 true ;;;
                           assign 2 1 true ;;; assign 2 2 true) init0) in
  let* l := lift (NewLife 10 10 init) in
  fun out =>
    match rounds 10 Next (l, out) with
    | Panic p => Panic p
    | Ok (_, (l', out')) => Ok (l', out')
    end.

End Rev3.

(** *** Specification-side notions for the third revision *)

Definition diagonals : list (Z * Z) := [(-1, -1); (-1, 1); (1, -1); (1, 1)].

(** Number of alive cells among the four diagonal neighbours. *)
Definition diagonal_neighbours (f : Field) (r c : Z) : Z :=
  len (List.filter (fun d => torus_cell f (r + d.1) (c + d.2)) diagonals).

Definition diagonal_step_cell (f : Field) (i j : Z) : bool :=
  rule (diagonal_neighbours f i j) (cell f i j).

(** What the third revision's [NextGen] prints. *)
Definition NextGen_trace (f : Field) (r c : Z) : list byte :=
  concat (replicate (Z.to_nat (diagonal_neighbours f r c)) (Rev3.line_rc r c)) ++
  (if diagonal_step_cell f r c then Rev3.line_rc_true r c else []).

(** The invariant of the loops of [Next] for any rule [stepc] that the
    loop applies to the cells. *)
Definition Next_inv_by (stepc : Field -> Z -> Z -> bool)
    (l0 : Life) (k m : Z) (l : Life) : Prop :=
  cur l = cur l0 /\ gen l = gen l0 /\
  wf_field (next l) /\ h (next l) = h (next l0) /\ w (next l) = w (next l0) /\
  forall i j, 0 <= i -> 0 <= j ->
    cell (next l) i j =
      if visited k m i j && in_boundsb (cur l0) i j && in_boundsb (next l0) i j
      then stepc (cur l0) i j
      else cell (next l0) i j.

(** ** Basic facts about the run-time model *)

Lemma wrap_small z : is_int z -> wrap z = z.
Proof.
  unfold is_int, wrap, int_min, int_max, int_mod. intros Hz.
  rewrite Z.mod_small; lia.
Qed.

Lemma max_len_int z : - max_len <= z <= 2 * max_len + 1 -> is_int z.
Proof. unfold max_len, is_int, int_min, int_max. lia. Qed.

Lemma index_lookup {A : Type} (l : list A) (i : Z) (x : A) :
  0 <= i -> l !! Z.to_nat i = Some x -> index l i = Ok x.
Proof.
  intros Hi Hl. unfold index.
  destruct (Z.ltb_spec i 0); [lia|]. now rewrite Hl.
Qed.

Lemma index_neg {A : Type} (l : list A) (i : Z) :
  i < 0 -> index l i = Panic IndexOutOfRange.
Proof. intros Hi. unfold index. destruct (Z.ltb_spec i 0); [done|lia]. Qed.

Lemma index_ge {A : Type} (l : list A) (i : Z) :
  len l <= i -> index l i = Panic IndexOutOfRange.
Proof.
  intros Hi. unfold index, len in *. destruct (Z.ltb_spec i 0); [done|].
  rewrite lookup_ge_None_2; [done|lia].
Qed.

Lemma wf_row (f : Field) (i : Z) :
  wf_field f -> 0 <= i < h f ->
  exists row, cs f !! Z.to_nat i = Some row /\ length row = Z.to_nat (w f).
Proof.
  intros (Hh & Hw & Hlen & Hrows) Hi.
  destruct (lookup_lt_is_Some_2 (cs f) (Z.to_nat i)) as [row Hrow]; [lia|].
  exists row. split; [done|].
  eapply (Forall_lookup_1 _ _ _ _ Hrows Hrow).
Qed.

Lemma wf_cell (f : Field) (i j : Z) :
  wf_field f -> in_bounds f i j ->
  exists row, cs f !! Z.to_nat i = Some row /\
              row !! Z.to_nat j = Some (cell f i j).
Proof.
  intros Hwf [Hi Hj]. destruct (wf_row f i Hwf Hi) as (row & Hrow & Hlen).
  exists row. split; [done|]. unfold cell. rewrite Hrow.
  destruct (lookup_lt_is_Some_2 row (Z.to_nat j)) as [b Hb]; [lia|].
  now rewrite Hb.
Qed.

(** [Alive] reads the cell one period up, provided the sum does not leave
    the range in which [%] yields a valid index. *)
Lemma Alive_read (f : Field) (r c : Z) :
  wf_field f ->
  - h f <= r <= int_max - h f -> - w f <= c <= int_max - w f ->
  Alive r c f = Ok (torus_cell f r c, f).
Proof.
  intros Hwf Hr Hc. pose proof Hwf as (Hh & Hw & _).
  assert (Hm : max_len < int_max) by (unfold max_len, int_max; lia).
  unfold Alive, bind, get, lift, int_rem, int_add.
  rewrite !wrap_small by (unfold is_int, int_min, max_len, int_max in *; lia).
  destruct (Z.eqb_spec (h f) 0); [lia|].
  destruct (Z.eqb_spec (w f) 0); [lia|].
  rewrite !Z.rem_mod_nonneg by lia.
  replace ((r + h f) mod h f) with (r mod h f)
    by (rewrite <- (Z_mod_plus_full r 1 (h f)); f_equal; lia).
  replace ((c + w f) mod w f) with (c mod w f)
    by (rewrite <- (Z_mod_plus_full c 1 (w f)); f_equal; lia).
  assert (Hb : in_bounds f (r mod h f) (c mod w f)).
  { split; apply Z.mod_pos_bound; lia. }
  destruct (wf_cell f _ _ Hwf Hb) as (row & Hrow & Hcell).
  rewrite (index_lookup _ _ _ (proj1 (proj1 Hb)) Hrow).
  now rewrite (index_lookup _ _ _ (proj1 (proj2 Hb)) Hcell).
Qed.

(** ** The rule of the game *)

Lemma Alive_neighbour (f : Field) (r c i j : Z) :
  wf_field f -> in_bounds f r c -> -1 <= i <= 1 -> -1 <= j <= 1 ->
  Alive (int_add r i) (int_add c j) f = Ok (torus_cell f (r + i) (c + j), f).
Proof.
  intros Hwf [Hr Hc] Hi Hj. pose proof Hwf as (Hh & Hw & _).
  unfold int_add.
  rewrite !wrap_small by (apply max_len_int; lia).
  apply Alive_read; [done| |];
    unfold int_max, max_len in *; lia.
Qed.

Lemma Alive_in_bounds (f : Field) (r c : Z) :
  wf_field f -> in_bounds f r c -> Alive r c f = Ok (cell f r c, f).
Proof.
  intros Hwf [Hr Hc]. pose proof Hwf as (Hh & Hw & _).
  rewrite Alive_read by (try done; unfold int_max, max_len in *; lia).
  unfold torus_cell. now rewrite !Z.mod_small by lia.
Qed.

Lemma NextGen_eq (f : Field) (r c : Z) :
  wf_field f -> in_bounds f r c ->
  NextGen r c f = Ok (rule (live_neighbours f r c) (cell f r c), f).
Proof.
  intros Hwf Hb.
  unfold NextGen, for_int.
  change (Z.to_nat (1 + 1 - -1)) with 3%nat. cbn [for_from].
  change (-1 + 1) with 0. change (0 + 1) with 1.
  cbn [Z.eqb negb orb].
  unfold bind, ret.
  repeat (rewrite Alive_neighbour by (done || lia); cbv beta iota).
  unfold live_neighbours, offsets8. cbn [List.filter fst snd].
  pose proof (Alive_in_bounds f r c Hwf Hb) as Hself. revert Hself.
  generalize (torus_cell f (r + -1) (c + -1)) (torus_cell f (r + -1) (c + 0))
    (torus_cell f (r + -1) (c + 1)) (torus_cell f (r + 0) (c + -1))
    (torus_cell f (r + 0) (c + 1)) (torus_cell f (r + 1) (c + -1))
    (torus_cell f (r + 1) (c + 0)) (torus_cell f (r + 1) (c + 1)) (cell f r c).
  intros [] [] [] [] [] [] [] [] b Hself;
    repeat match goal with
           | |- context [int_add ?a 1] =>
               let v := eval vm_compute in (int_add a 1) in
               change (int_add a 1) with v
           end;
    cbn [Z.eqb Pos.eqb]; rewrite ?Hself; destruct b; reflexivity.
Qed.

(** ** Writing a cell *)

Lemma in_boundsb_spec (f : Field) (r c : Z) :
  in_boundsb f r c = true <-> in_bounds f r c.
Proof. unfold in_boundsb, in_bounds. lia. Qed.

Lemma Set_rejected (f : Field) (r c : Z) (b : bool) :
  ~ in_bounds f r c -> Set_ r c b f = Ok (Some "out of field"%string, f).
Proof.
  intros Hout. unfold Set_, bind, get, in_bounds in *.
  destruct ((r <? 0) || (r >=? h f) || (c <? 0) || (c >=? w f)) eqn:E;
    [reflexivity | lia].
Qed.

Lemma Set_written (f : Field) (r c : Z) (b : bool) :
  wf_field f -> in_bounds f r c ->
  exists f', Set_ r c b f = Ok (None, f') /\
    wf_field f' /\ h f' = h f /\ w f' = w f /\
    forall i j, 0 <= i -> 0 <= j ->
      cell f' i j = if (i =? r) && (j =? c) then b else cell f i j.
Proof.
  intros Hwf Hb. pose proof Hb as [Hr Hc].
  destruct (wf_cell f r c Hwf Hb) as (row & Hrow & Hcell).
  pose proof Hwf as (Hh & Hw & Hlen & Hrows).
  assert (Hrowlen : length row = Z.to_nat (w f))
    by (eapply (Forall_lookup_1 _ _ _ _ Hrows Hrow)).
  eexists. split; [|split; [|split; [|split]]].
  - unfold Set_, bind, get, lift, put, ret.
    destruct ((r <? 0) || (r >=? h f) || (c <? 0) || (c >=? w f)) eqn:E; [lia|].
    rewrite (index_lookup _ _ _ (proj1 Hr) Hrow).
    rewrite (index_lookup _ _ _ (proj1 Hc) Hcell). reflexivity.
  - unfold wf_field; cbn. rewrite length_insert.
    repeat split; try lia.
    apply Forall_insert; [done|]. now rewrite length_insert.
  - reflexivity.
  - reflexivity.
  - intros i j Hi Hj. unfold cell; cbn.
    destruct (Z.eqb_spec i r) as [->|Hne]; cbn.
    + rewrite list_lookup_insert_eq by lia.
      rewrite Hrow.
      destruct (Z.eqb_spec j c) as [->|Hne'].
      * now rewrite list_lookup_insert_eq by lia.
      * now rewrite list_lookup_insert_ne by lia.
    + now rewrite list_lookup_insert_ne by lia.
Qed.

(** Both cases of [Set] at once, as the loop of [Next] uses it. *)
Lemma Set_effect (f : Field) (r c : Z) (b : bool) :
  wf_field f ->
  exists e f', Set_ r c b f = Ok (e, f') /\
    wf_field f' /\ h f' = h f /\ w f' = w f /\
    forall i j, 0 <= i -> 0 <= j ->
      cell f' i j =
        if in_boundsb f r c && (i =? r) && (j =? c) then b else cell f i j.
Proof.
  intros Hwf. destruct (in_boundsb f r c) eqn:E.
  - apply in_boundsb_spec in E.
    destruct (Set_written f r c b Hwf E) as (f' & HS & Hwf' & Hh & Hw & Hcells).
    exists None, f'. split; [done|]. split; [done|]. split; [done|].
    split; [done|]. intros i j Hi Hj. cbn. now apply Hcells.
  - exists (Some "out of field"%string), f.
    rewrite Set_rejected; [split; [done|]; split; [done|]; split; [done|]; split; done|].
    intros Hb. apply in_boundsb_spec in Hb. congruence.
Qed.

(** ** Loops *)

Lemma bind_Ok {S A B : Type} (m : M S A) (k : A -> M S B) (s s' : S) (a : A) :
  m s = Ok (a, s') -> bind m k s = k a s'.
Proof. intros Hm. unfold bind. now rewrite Hm. Qed.

Lemma bind_Panic {S A B : Type} (m : M S A) (k : A -> M S B) (s : S) (p : panic) :
  m s = Panic p -> bind m k s = Panic p.
Proof. intros Hm. unfold bind. now rewrite Hm. Qed.

(** An invariant indexed by the number of iterations done. *)
Lemma range_from_inv {S A : Type} (P : nat -> S -> Prop)
    (body : Z -> A -> M S unit) (l : list A) (i0 : Z) (s : S) :
  P 0%nat s ->
  (forall k x s1, l !! k = Some x -> P k s1 ->
     exists s2, body (i0 + Z.of_nat k) x s1 = Ok (tt, s2) /\ P (Datatypes.S k) s2) ->
  exists s', range_from i0 l body s = Ok (tt, s') /\ P (length l) s'.
Proof.
  revert P i0 s. induction l as [|x l IH]; intros P i0 s H0 Hstep.
  - exists s. split; [reflexivity | exact H0].
  - destruct (Hstep 0%nat x s eq_refl H0) as (s1 & Hbody & H1).
    replace (i0 + Z.of_nat 0) with i0 in Hbody by lia.
    destruct (IH (fun k => P (Datatypes.S k)) (i0 + 1) s1 H1) as (s' & Hrun & Hend).
    + intros k y s2 Hk HP.
      destruct (Hstep (Datatypes.S k) y s2 Hk HP) as (s3 & Hb & HP3).
      exists s3. split; [|exact HP3].
      rewrite <- Hb. f_equal. lia.
    + exists s'. split; [|exact Hend].
      cbn [range_from]. unfold bind. now rewrite Hbody.
Qed.

(** ** Allocation *)

Lemma make_ok {A : Type} (zero : A) (n : Z) :
  0 <= n <= max_len -> make zero n = Ok (replicate (Z.to_nat n) zero).
Proof.
  intros Hn. unfold make.
  destruct (Z.ltb_spec n 0); [lia|]. destruct (Z.ltb_spec max_len n); [lia|].
  reflexivity.
Qed.

Lemma NewField_ok (h0 w0 : Z) :
  0 <= h0 <= max_len -> 0 <= w0 <= max_len -> NewField h0 w0 = Ok (blank h0 w0).
Proof.
  intros Hh Hw. unfold NewField. rewrite make_ok by done.
  set (H := Z.to_nat h0). set (row := replicate (Z.to_nat w0) false).
  unfold for_range.
  destruct (range_from_inv
              (fun k (cs1 : list (list bool)) =>
                 length cs1 = H /\ forall i, (i < k)%nat -> cs1 !! i = Some row)
              (fun i _ =>
                 let* cs1 := get in
                 let* row := lift (make false w0) in
                 let* _ := lift (index cs1 i) in
                 put (<[Z.to_nat i := row]> cs1))
              (replicate H ([] : list bool)) 0 (replicate H ([] : list bool)))
    as (cs1 & Hrun & Hlen & Hall).
  - split; [apply length_replicate | lia].
  - intros k x s1 Hk [Hlen Hall].
    apply lookup_replicate in Hk as [_ Hk].
    destruct (lookup_lt_is_Some_2 s1 k) as [y Hy]; [lia|].
    eexists. split.
    + unfold bind, get, lift, put. rewrite make_ok by done.
      rewrite (index_lookup s1 (0 + Z.of_nat k) y)
        by (try lia; now rewrite Z2Nat.inj_add, Nat2Z.id by lia).
      reflexivity.
    + replace (Z.to_nat (0 + Z.of_nat k)) with k by lia.
      split; [now rewrite length_insert|].
      intros i Hi. destruct (decide (i = k)) as [->|Hne].
      * apply list_lookup_insert_eq. lia.
      * rewrite list_lookup_insert_ne by done. apply Hall. lia.
  - rewrite Hrun. unfold blank. do 2 f_equal.
    symmetry. apply replicate_as_Forall. rewrite length_replicate in Hall.
    split; [done|]. apply Forall_lookup. intros i x Hix.
    pose proof (lookup_lt_Some _ _ _ Hix) as Hlt.
    rewrite Hall in Hix by lia. now injection Hix.
Qed.

Lemma blank_wf (h0 w0 : Z) :
  1 <= h0 <= max_len -> 1 <= w0 <= max_len -> wf_field (blank h0 w0).
Proof.
  intros Hh Hw. unfold wf_field, blank; cbn.
  rewrite length_replicate. repeat split; try lia.
  apply Forall_replicate, length_replicate.
Qed.

(** ** One generation *)

Lemma Next_inv_cell (l0 l : Life) (k m : Z) :
  Next_inv l0 k m l -> wf_field (cur l0) ->
  0 <= k < h (cur l0) -> 0 <= m < w (cur l0) ->
  exists l',
    (let* b := on_cur (NextGen k m) in
     let* _ := on_next (Set_ k m b) in
     ret tt) l = Ok (tt, l') /\
    Next_inv l0 k (m + 1) l'.
Proof.
  intros (Hcur & Hgen & Hwf & Hh & Hw & Hcells) Hwf0 Hk Hm.
  unfold bind, on_cur, on_next, ret.
  rewrite Hcur, NextGen_eq by done. cbn [cur next gen].
  destruct (Set_effect (next l) k m (step_cell (cur l0) k m) Hwf)
    as (e & f' & HSet & Hwf' & Hh' & Hw' & Hcells').
  unfold step_cell in HSet at 1. rewrite HSet.
  eexists. split; [reflexivity|].
  unfold Next_inv; cbn [cur next gen].
  split; [done|]. split; [done|]. split; [done|].
  split; [congruence|]. split; [congruence|].
  intros i j Hi Hj. rewrite Hcells', Hcells by done.
  unfold in_boundsb, visited. rewrite Hh, Hw.
  destruct ((0 <=? k) && (k <? h (next l0)) && (0 <=? m) && (m <? w (next l0))
            && (i =? k) && (j =? m)) eqn:E1.
  - assert (i = k /\ j = m) as [-> ->] by lia.
    destruct (((k <? k) || (k =? k) && (m <? m + 1)) &&
              ((0 <=? k) && (k <? h (cur l0)) && (0 <=? m) && (m <? w (cur l0))) &&
              ((0 <=? k) && (k <? h (next l0)) && (0 <=? m) && (m <? w (next l0))))
      eqn:E2; [reflexivity | lia].
  - destruct (((i <? k) || (i =? k) && (j <? m)) &&
              ((0 <=? i) && (i <? h (cur l0)) && (0 <=? j) && (j <? w (cur l0))) &&
              ((0 <=? i) && (i <? h (next l0)) && (0 <=? j) && (j <? w (next l0))))
      eqn:E2;
    destruct (((i <? k) || (i =? k) && (j <? m + 1)) &&
              ((0 <=? i) && (i <? h (cur l0)) && (0 <=? j) && (j <? w (cur l0))) &&
              ((0 <=? i) && (i <? h (next l0)) && (0 <=? j) && (j <? w (next l0))))
      eqn:E3; try reflexivity; lia.
Qed.

Lemma Next_inv_row (l0 l : Life) (k : Z) (row : list bool) :
  Next_inv l0 k 0 l -> wf_field (cur l0) ->
  0 <= k < h (cur l0) -> length row = Z.to_nat (w (cur l0)) ->
  exists l',
    for_range row (fun j _ =>
      let* b := on_cur (NextGen k j) in
      let* _ := on_next (Set_ k j b) in
      ret tt) l = Ok (tt, l') /\
    Next_inv l0 (k + 1) 0 l'.
Proof.
  intros Hinv Hwf0 Hk Hlen. unfold for_range.
  destruct (range_from_inv
              (fun m s => Next_inv l0 k (Z.of_nat m) s)
              (fun j (_ : bool) =>
                 let* b := on_cur (NextGen k j) in
                 let* _ := on_next (Set_ k j b) in
                 ret tt) row 0 l Hinv)
    as (l' & Hrun & Hend).
  - intros m x s1 Hm Hs1. apply lookup_lt_Some in Hm.
    destruct (Next_inv_cell l0 s1 k (Z.of_nat m) Hs1 Hwf0 Hk) as (s2 & Hb & Hs2);
      [lia|].
    exists s2. split; [exact Hb|].
    now replace (Z.of_nat (Datatypes.S m)) with (Z.of_nat m + 1) by lia.
  - exists l'. split; [exact Hrun|].
    destruct Hend as (Hcur & Hgen & Hwf & Hh & Hw & Hcells).
    split; [done|]. split; [done|]. split; [done|].
    split; [done|]. split; [done|].
    intros i j Hi Hj. rewrite Hcells by done.
    pose proof Hwf0 as (_ & Hw0 & _).
    rewrite Hlen, Z2Nat.id by lia. unfold visited, in_boundsb.
    destruct (((i <? k) || (i =? k) && (j <? w (cur l0))) &&
              ((0 <=? i) && (i <? h (cur l0)) && (0 <=? j) && (j <? w (cur l0))) &&
              ((0 <=? i) && (i <? h (next l0)) && (0 <=? j) && (j <? w (next l0))))
      eqn:E1;
    destruct (((i <? k + 1) || (i =? k + 1) && (j <? 0)) &&
              ((0 <=? i) && (i <? h (cur l0)) && (0 <=? j) && (j <? w (cur l0))) &&
              ((0 <=? i) && (i <? h (next l0)) && (0 <=? j) && (j <? w (next l0))))
      eqn:E2; try reflexivity; lia.
Qed.

Lemma Next_inv_init (l : Life) : wf_field (next l) -> Next_inv l 0 0 l.
Proof.
  intros Hwf. split; [done|]. split; [done|]. split; [done|].
  split; [done|]. split; [done|].
  intros i j Hi Hj. unfold visited.
  destruct (Z.ltb_spec i 0); [lia|].
  destruct (Z.ltb_spec j 0); [lia|].
  now rewrite andb_false_r.
Qed.

(** [Next] in full, for any two well-formed buffers: the new current
    field is the old next buffer, in which the cells that both buffers
    have hold the new generation; the new next buffer is allocated with
    the two dimensions of that field exchanged. *)
Lemma Next_effect (l : Life) :
  wf_field (cur l) -> wf_field (next l) ->
  exists f',
    Next l = Ok (tt, {| cur := f';
                        next := blank (w (next l)) (h (next l));
                        gen := int_add (gen l) 1 |}) /\
    wf_field f' /\ h f' = h (next l) /\ w f' = w (next l) /\
    forall i j, 0 <= i -> 0 <= j ->
      cell f' i j =
        if in_boundsb (cur l) i j && in_boundsb (next l) i j
        then step_cell (cur l) i j
        else cell (next l) i j.
Proof.
  intros Hwfc Hwfn.
  destruct (range_from_inv
              (fun k s => Next_inv l (Z.of_nat k) 0 s)
              (fun i (r : list bool) =>
                 for_range r (fun j _ =>
                   let* b := on_cur (NextGen i j) in
                   let* _ := on_next (Set_ i j b) in
                   ret tt))
              (cs (cur l)) 0 l (Next_inv_init l Hwfn))
    as (l' & Hrun & Hend).
  - intros k row s1 Hk Hs1.
    pose proof Hwfc as (Hh & Hw & Hlen & Hrows).
    pose proof (lookup_lt_Some _ _ _ Hk) as Hlt.
    pose proof (Forall_lookup_1 _ _ _ _ Hrows Hk) as Hrow.
    destruct (Next_inv_row l s1 (Z.of_nat k) row Hs1 Hwfc) as (s2 & Hb & Hs2);
      [lia | exact Hrow |].
    exists s2. split; [exact Hb|].
    now replace (Z.of_nat (Datatypes.S k)) with (Z.of_nat k + 1) by lia.
  - destruct Hend as (Hcur & Hgen & Hwf & Hh & Hw & Hcells).
    pose proof Hwfc as (Hhc & Hwc & Hlen & _).
    pose proof Hwf as (Hhn & Hwn & _).
    exists (next l'). split; [|split; [done|split; [done|split; [done|]]]].
    + unfold Next. rewrite (bind_Ok get _ l l l eq_refl).
      rewrite (bind_Ok _ _ _ _ _ Hrun).
      unfold bind, get, put, lift. cbn [cur next gen].
      rewrite NewField_ok by lia.
      now rewrite Hgen, Hh, Hw.
    + intros i j Hi Hj. rewrite Hcells by done.
      rewrite Hlen, Z2Nat.id by lia. unfold visited, in_boundsb.
      destruct (((i <? h (cur l)) || (i =? h (cur l)) && (j <? 0)) &&
                ((0 <=? i) && (i <? h (cur l)) && (0 <=? j) && (j <? w (cur l))) &&
                ((0 <=? i) && (i <? h (next l)) && (0 <=? j) && (j <? w (next l))))
        eqn:E1;
      destruct ((0 <=? i) && (i <? h (cur l)) && (0 <=? j) && (j <? w (cur l)) &&
                ((0 <=? i) && (i <? h (next l)) && (0 <=? j) && (j <? w (next l))))
        eqn:E2; try reflexivity; lia.
Qed.

(** When the two buffers have the same dimensions, one call of [Next]
    recomputes every cell and keeps the dimensions of the current field. *)
Lemma Next_recomputes (l : Life) :
  wf_field (cur l) -> wf_field (next l) ->
  h (next l) = h (cur l) -> w (next l) = w (cur l) ->
  exists l', Next l = Ok (tt, l') /\
    wf_field (cur l') /\ h (cur l') = h (cur l) /\ w (cur l') = w (cur l) /\
    gen l' = int_add (gen l) 1 /\
    forall i j, in_bounds (cur l) i j ->
      cell (cur l') i j = step_cell (cur l) i j.
Proof.
  intros Hwfc Hwfn Hh Hw.
  destruct (Next_effect l Hwfc Hwfn) as (f' & HN & Hwf' & Hh' & Hw' & Hcells).
  eexists. split; [exact HN|]. cbn [cur gen].
  split; [done|]. split; [congruence|]. split; [congruence|].
  split; [done|]. intros i j [Hi Hj]. rewrite Hcells by lia.
  unfold in_boundsb. rewrite Hh, Hw.
  destruct ((0 <=? i) && (i <? h (cur l)) && (0 <=? j) && (j <? w (cur l)) &&
            ((0 <=? i) && (i <? h (cur l)) && (0 <=? j) && (j <? w (cur l))))
    eqn:E; [reflexivity | lia].
Qed.

(** ** Construction *)

Lemma NewLife_ok (h0 w0 : Z) (init : list (list bool)) (row0 : list bool) :
  1 <= h0 <= max_len -> 0 <= w0 <= max_len ->
  len init = h0 -> init !! 0%nat = Some row0 -> len row0 = w0 ->
  NewLife h0 w0 init =
    Ok (Value {| cur := {| cs := init; w := w0; h := h0 |};
                 next := blank h0 w0; gen := 0 |}).
Proof.
  intros Hh Hw Hlen Hrow Hrowlen. unfold NewLife.
  rewrite NewField_ok by lia.
  rewrite Hlen, Z.eqb_refl. cbn [negb].
  rewrite (index_lookup init 0 row0) by (done || lia).
  now rewrite Hrowlen, Z.eqb_refl.
Qed.

(** The check that [NewLife] makes: the number of rows and the length of
    the first row, and nothing else. *)
Lemma NewLife_accepts (h0 w0 : Z) (init : list (list bool)) :
  1 <= h0 <= max_len -> 1 <= w0 <= max_len ->
  (exists l, NewLife h0 w0 init = Ok (Value l)) <->
  len init = h0 /\ exists row0, init !! 0%nat = Some row0 /\ len row0 = w0.
Proof.
  intros Hh Hw. split.
  - intros [l Hl]. unfold NewLife in Hl. rewrite NewField_ok in Hl by lia.
    destruct (Z.eqb_spec (len init) h0) as [Hlen|]; [|discriminate].
    cbn [negb] in Hl. split; [done|].
    destruct init as [|row0 init']; [unfold len in Hlen; cbn in Hlen; lia|].
    rewrite (index_lookup _ 0 row0) in Hl by (done || lia).
    exists row0. split; [done|].
    destruct (Z.eqb_spec (len row0) w0); [done | discriminate].
  - intros (Hlen & row0 & Hrow & Hrowlen).
    eexists. apply (NewLife_ok h0 w0 init row0); (done || lia).
Qed.


Lemma init_wf (h0 w0 : Z) (init : list (list bool)) :
  1 <= h0 <= max_len -> 1 <= w0 <= max_len ->
  len init = h0 -> Forall (fun row => len row = w0) init ->
  wf_field {| cs := init; w := w0; h := h0 |}.
Proof.
  intros Hh Hw Hlen Hrows. unfold wf_field, len in *; cbn.
  split; [done|]. split; [done|]. split; [lia|].
  eapply Forall_impl; [exact Hrows|]. cbn. intros row Hrow. lia.
Qed.

(** ** The claims about [Field] *)

Lemma grid3_wf : wf_field grid3.
Proof.
  unfold wf_field, grid3, max_len; cbn.
  split; [lia|]. split; [lia|]. split; [reflexivity|].
  repeat constructor.
Qed.

(** C1. For every well-formed field and every in-bounds cell [(r, c)],
    [NextGen] returns true exactly when the number of alive cells among
    the eight neighbours on the torus is 3, or is 2 and the cell itself is
    alive; the field it returns is the field it was given. *)
Theorem NextGen_game_of_life_rule (f : Field) (r c : Z) :
  wf_field f -> in_bounds f r c ->
  exists b, NextGen r c f = Ok (b, f) /\
    (b = true <->
     live_neighbours f r c = 3 \/
     (live_neighbours f r c = 2 /\ cell f r c = true)).
Proof.
  intros Hwf Hb. eexists. split; [apply NextGen_eq; done|].
  unfold rule. rewrite orb_true_iff, andb_true_iff, !Z.eqb_eq. tauto.
Qed.

Lemma NextGen_game_of_life_rule_witness :
  exists b, NextGen 1 1 grid3 = Ok (b, grid3) /\
    (b = true <->
     live_neighbours grid3 1 1 = 3 \/
     (live_neighbours grid3 1 1 = 2 /\ cell grid3 1 1 = true)).
Proof.
  apply (NextGen_game_of_life_rule grid3 1 1).
  - exact grid3_wf.
  - unfold in_bounds, grid3; cbn. lia.
Defined.

(** C4, as the code has it.  For a well-formed field and coordinates that
    lie at most one period below the grid ([-h <= row], [-w <= col]) and
    whose shift by one period is still an [int], [Alive] never fails,
    leaves the field alone and reads the cell at the effective index
    [((row mod h) + h) mod h], [((col mod w) + w) mod w]; within that range
    it is periodic in both coordinates. *)
Theorem Alive_one_period (f : Field) (r c : Z) :
  wf_field f ->
  - h f <= r <= int_max - h f -> - w f <= c <= int_max - w f ->
  Alive r c f =
    Ok (cell f ((r mod h f + h f) mod h f) ((c mod w f + w f) mod w f), f) /\
  (r + h f <= int_max - h f -> Alive (r + h f) c f = Alive r c f) /\
  (c + w f <= int_max - w f -> Alive r (c + w f) f = Alive r c f).
Proof.
  intros Hwf Hr Hc. pose proof Hwf as (Hh & Hw & _).
  assert (Hrow : forall x, (x mod h f + h f) mod h f = x mod h f).
  { intros x. replace (x mod h f + h f) with (x mod h f + 1 * h f) by lia.
    rewrite Z_mod_plus_full. apply Z.mod_mod. lia. }
  assert (Hcol : forall x, (x mod w f + w f) mod w f = x mod w f).
  { intros x. replace (x mod w f + w f) with (x mod w f + 1 * w f) by lia.
    rewrite Z_mod_plus_full. apply Z.mod_mod. lia. }
  rewrite Hrow, Hcol. split; [|split].
  - now apply Alive_read.
  - intros Hr'. rewrite !Alive_read by (done || lia).
    unfold torus_cell.
    replace (r + h f) with (r + 1 * h f) by lia. now rewrite Z_mod_plus_full.
  - intros Hc'. rewrite !Alive_read by (done || lia).
    unfold torus_cell.
    replace (c + w f) with (c + 1 * w f) by lia. now rewrite Z_mod_plus_full.
Qed.

Lemma Alive_one_period_witness :
  Alive (-3) (-1) grid3 =
    Ok (cell grid3 ((-3 mod h grid3 + h grid3) mod h grid3)
                   ((-1 mod w grid3 + w grid3) mod w grid3), grid3) /\
  (-3 + h grid3 <= int_max - h grid3 ->
   Alive (-3 + h grid3) (-1) grid3 = Alive (-3) (-1) grid3) /\
  (-1 + w grid3 <= int_max - w grid3 ->
   Alive (-3) (-1 + w grid3) grid3 = Alive (-3) (-1) grid3).
Proof.
  apply (Alive_one_period grid3 (-3) (-1)).
  - exact grid3_wf.
  - unfold grid3, int_max; cbn. lia.
  - unfold grid3, int_max; cbn. lia.
Defined.

(** C4 as stated fails: on a 3x3 field the row [-4] lies more than one
    period below the grid; [(-4 + 3) % 3] is [-1] in Go and the read
    panics, although the row one period up is read without trouble. *)
Lemma Alive_far_negative_panics :
  wf_field grid3 /\
  Alive (-4) 0 grid3 = Panic IndexOutOfRange /\
  Alive (-4 + h grid3) 0 grid3 = Ok (false, grid3).
Proof.
  split; [exact grid3_wf|]. split; vm_compute; reflexivity.
Qed.

(** C8. A write outside the grid is rejected with the error
    ["out of field"] and leaves the field as it was; a write inside the
    grid of a well-formed field succeeds, and [Alive] at the same
    coordinates then returns the written value. *)
Theorem Set_bounds_checked (f : Field) (r c : Z) (b : bool) :
  (~ in_bounds f r c ->
   Set_ r c b f = Ok (Some "out of field"%string, f)) /\
  (wf_field f -> in_bounds f r c ->
   exists f', Set_ r c b f = Ok (None, f') /\ Alive r c f' = Ok (b, f')).
Proof.
  split; [apply Set_rejected|].
  intros Hwf Hb.
  destruct (Set_written f r c b Hwf Hb) as (f' & HS & Hwf' & Hh & Hw & Hcells).
  exists f'. split; [exact HS|].
  rewrite Alive_in_bounds.
  - rewrite Hcells by (destruct Hb; lia). now rewrite !Z.eqb_refl.
  - exact Hwf'.
  - unfold in_bounds in *. now rewrite Hh, Hw.
Qed.

Lemma Set_bounds_checked_witness :
  Set_ 3 0 true grid3 = Ok (Some "out of field"%string, grid3) /\
  exists f', Set_ 1 2 true grid3 = Ok (None, f') /\ Alive 1 2 f' = Ok (true, f').
Proof.
  split.
  - apply (proj1 (Set_bounds_checked grid3 3 0 true)).
    unfold in_bounds, grid3; cbn. lia.
  - apply (proj2 (Set_bounds_checked grid3 1 2 true)).
    + exact grid3_wf.
    + unfold in_bounds, grid3; cbn. lia.
Defined.

(** ** The claims about [Life] *)

(** C2, what the code does.  [NewLife] allocates both buffers with the
    declared dimensions, but [Next] allocates the new next buffer by
    [NewField(l.cur.w, l.cur.h)], whose parameters are height first: after
    the first call the current field is [h0] by [w0] and the next buffer is
    [w0] by [h0], so the two disagree whenever [h0] and [w0] differ. *)
Theorem Next_exchanges_dimensions (h0 w0 : Z) (init : list (list bool)) :
  1 <= h0 <= max_len -> 1 <= w0 <= max_len ->
  len init = h0 -> Forall (fun row => len row = w0) init ->
  exists l0 l1,
    NewLife h0 w0 init = Ok (Value l0) /\
    (h (cur l0), w (cur l0)) = (h0, w0) /\
    (h (next l0), w (next l0)) = (h0, w0) /\
    Next l0 = Ok (tt, l1) /\
    (h (cur l1), w (cur l1)) = (h0, w0) /\
    (h (next l1), w (next l1)) = (w0, h0).
Proof.
  intros Hh Hw Hlen Hrows.
  destruct init as [|row0 init']; [unfold len in Hlen; cbn in Hlen; lia|].
  pose proof (Forall_inv Hrows) as Hrow0. cbn in Hrow0.
  set (l0 := {| cur := {| cs := row0 :: init'; w := w0; h := h0 |};
                next := blank h0 w0; gen := 0 |}).
  destruct (Next_effect l0) as (f' & HN & Hwf' & Hh' & Hw' & _).
  - cbn. now apply init_wf.
  - cbn. now apply blank_wf.
  - exists l0. eexists. split; [|split; [reflexivity|split; [reflexivity|]]].
    + apply (NewLife_ok h0 w0 _ row0); (done || lia).
    + split; [exact HN|]. cbn [cur next]. split; [|reflexivity].
      cbn in Hh', Hw'. now rewrite Hh', Hw'.
Qed.

Lemma Next_exchanges_dimensions_witness :
  exists l0 l1,
    NewLife 2 3 dead2x3 = Ok (Value l0) /\
    (h (cur l0), w (cur l0)) = (2, 3) /\
    (h (next l0), w (next l0)) = (2, 3) /\
    Next l0 = Ok (tt, l1) /\
    (h (cur l1), w (cur l1)) = (2, 3) /\
    (h (next l1), w (next l1)) = (3, 2).
Proof.
  apply (Next_exchanges_dimensions 2 3 dead2x3).
  - unfold max_len. lia.
  - unfold max_len. lia.
  - reflexivity.
  - repeat constructor.
Defined.

(** C3, what the code does.  On a 4x5 grid holding a 2x2 block in columns
    3 and 4, the second call of [Next] writes into a next buffer that is
    5 rows by 4 columns: the new state of cell [(1, 4)] is computed as
    alive, [Set] rejects it, [Next] discards the error, and the new
    current field has no column 4 at all. *)
Theorem Next_drops_cells :
  exists l0 l1 l2,
    NewLife 4 5 block4x5 = Ok (Value l0) /\
    Next l0 = Ok (tt, l1) /\ Next l1 = Ok (tt, l2) /\
    cs (cur l1) = block4x5 /\
    NextGen 1 4 (cur l1) = Ok (true, cur l1) /\
    Set_ 1 4 true (next l1) = Ok (Some "out of field"%string, next l1) /\
    (h (cur l2), w (cur l2)) = (5, 4) /\
    index (cs (cur l2)) 1 = Ok [false; false; false; true] /\
    Alive 1 4 (cur l2) = Ok (false, cur l2).
Proof.
  exists {| cur := {| cs := block4x5; w := 5; h := 4 |};
            next := blank 4 5; gen := 0 |}.
  exists {| cur := {| cs := block4x5; w := 5; h := 4 |};
            next := blank 5 4; gen := 1 |}.
  exists {| cur := {| cs := [[false; false; false; false];
                             [false; false; false; true];
                             [false; false; false; true];
                             [false; false; false; false];
                             [false; false; false; false]];
                      w := 4; h := 5 |};
            next := blank 4 5; gen := 2 |}.
  repeat split; vm_compute; reflexivity.
Qed.

(** C5, what the code does.  [NewLife] compares the number of rows and the
    length of the first row only: a pattern whose second row is short is
    accepted, and the first call of [Next] on the result panics with an
    index out of range. *)
Theorem NewLife_accepts_ragged :
  NewLife 2 2 ragged2x2 =
    Ok (Value {| cur := {| cs := ragged2x2; w := 2; h := 2 |};
                 next := blank 2 2; gen := 0 |}) /\
  Next {| cur := {| cs := ragged2x2; w := 2; h := 2 |};
          next := blank 2 2; gen := 0 |} = Panic IndexOutOfRange.
Proof. split; vm_compute; reflexivity. Qed.

(** C10. With a declared height of 0 and an empty pattern the row count
    matches, so [NewLife] goes on to read [init[0]] and panics with an
    index out of range, whatever the declared width. *)
Theorem NewLife_empty_pattern_panics (w0 : Z) :
  NewLife 0 w0 [] = Panic IndexOutOfRange.
Proof.
  unfold NewLife.
  assert (Hfield : NewField 0 w0 = Ok {| cs := []; w := w0; h := 0 |})
    by reflexivity.
  rewrite Hfield. change (len ([] : list (list bool)) =? 0) with true.
  cbn [negb]. now rewrite index_ge.
Qed.

(** ** Reading lines *)

Lemma ReadBytes_line (line rest : list byte) :
  is_line line -> ReadBytes newline (line ++ rest) = (line, None, rest).
Proof.
  intros (body & -> & Hbody).
  induction body as [|b body IH]; cbn.
  - reflexivity.
  - apply not_elem_of_cons in Hbody as [Hb Hbody].
    destruct (Byte.eqb b newline) eqn:E.
    + apply Byte.byte_dec_bl in E. congruence.
    + now rewrite (IH Hbody).
Qed.

Lemma ReadBytes_unterminated (tail : list byte) :
  newline ∉ tail -> ReadBytes newline tail = (tail, Some "EOF"%string, []).
Proof.
  induction tail as [|b tail IH]; intros Hnl; cbn.
  - reflexivity.
  - apply not_elem_of_cons in Hnl as [Hb Hnl].
    destruct (Byte.eqb b newline) eqn:E.
    + apply Byte.byte_dec_bl in E. congruence.
    + now rewrite (IH Hnl).
Qed.

Lemma read_rows_line (colsize : Z) (init : list (list bool))
    (rd line rest : list byte) :
  ReadBytes newline rd = (line, None, rest) ->
  read_rows colsize init rd =
    if negb (len line =? colsize) then Error "column size is not appropriate"
    else read_rows colsize (init ++ [bytesToBool line]) rest.
Proof.
  intros Hrd. rewrite read_rows_equation_1. unfold inspect.
  assert (Hgen : forall x (e : ReadBytes newline rd = x),
             x = (line, None, rest) ->
             read_rows_unfold_clause_1 colsize init rd (exist _ x e) =
               if negb (len line =? colsize)
               then Error "column size is not appropriate"
               else read_rows colsize (init ++ [bytesToBool line]) rest).
  { intros x e ->. now rewrite read_rows_clause_1_equation_2. }
  now apply Hgen.
Qed.

Lemma read_rows_eof (colsize : Z) (init : list (list bool))
    (rd line rest : list byte) (e : string) :
  ReadBytes newline rd = (line, Some e, rest) ->
  read_rows colsize init rd = Value init.
Proof.
  intros Hrd. rewrite read_rows_equation_1. unfold inspect.
  assert (Hgen : forall x (e' : ReadBytes newline rd = x),
             x = (line, Some e, rest) ->
             read_rows_unfold_clause_1 colsize init rd (exist _ x e') =
               Value init).
  { intros x e' ->. now rewrite read_rows_clause_1_equation_1. }
  now apply Hgen.
Qed.

(** Lines of the expected length are all appended; what follows them
    decides how the loop ends. *)
Lemma read_rows_lines (colsize : Z) (lines : list (list byte))
    (init : list (list bool)) (rest : list byte) :
  Forall is_line lines -> Forall (fun l => len l = colsize) lines ->
  read_rows colsize init (concat lines ++ rest) =
    read_rows colsize (init ++ map bytesToBool lines) rest.
Proof.
  revert init. induction lines as [|l lines IH]; intros init Hlines Hlens.
  - cbn. now rewrite app_nil_r.
  - apply Forall_cons in Hlines as [Hl Hlines].
    apply Forall_cons in Hlens as [Hlen Hlens].
    cbn [concat]. rewrite <- app_assoc.
    rewrite (read_rows_line _ _ _ l (concat lines ++ rest))
      by now apply ReadBytes_line.
    rewrite Hlen, Z.eqb_refl. cbn [negb].
    rewrite IH by done. cbn [map]. now rewrite <- app_assoc.
Qed.

Lemma read_rows_short_line (colsize : Z) (lines : list (list byte))
    (init : list (list bool)) :
  Forall is_line lines -> Exists (fun l => len l <> colsize) lines ->
  read_rows colsize init (concat lines) =
    Error "column size is not appropriate".
Proof.
  revert init. induction lines as [|l lines IH]; intros init Hlines Hbad.
  - inversion Hbad.
  - apply Forall_cons in Hlines as [Hl Hlines].
    cbn [concat].
    rewrite (read_rows_line _ _ _ l (concat lines))
      by now apply ReadBytes_line.
    destruct (Z.eqb_spec (len l) colsize) as [Heq|Hne]; cbn [negb].
    + apply IH; [done|]. apply Exists_cons in Hbad as [|]; [done|done].
    + reflexivity.
Qed.

(** ** Loading a file *)

Lemma lookup_map {A B : Type} (f : A -> B) (l : list A) (i : nat) :
  map f l !! i = f <$> l !! i.
Proof.
  revert i. induction l as [|x l IH]; intros [|i]; cbn; try done.
Qed.

Lemma is_line_nonempty (l : list byte) : is_line l -> 1 <= len l.
Proof.
  intros (body & -> & _). unfold len. rewrite length_app. cbn. lia.
Qed.

Lemma lines_length (lines : list (list byte)) :
  Forall is_line lines -> len lines <= len (concat lines).
Proof.
  unfold len. induction 1 as [|l lines Hl _ IH]; cbn; [lia|].
  apply is_line_nonempty in Hl. unfold len in Hl.
  rewrite length_app. lia.
Qed.

Lemma line_length (lines : list (list byte)) (l : list byte) :
  l ∈ lines -> len l <= len (concat lines).
Proof.
  unfold len. induction 1 as [l lines|l l' lines _ IH]; cbn;
    rewrite length_app; lia.
Qed.

(** The loader on a file made of terminated lines of one length, followed
    by bytes without a terminator. *)
Lemma NewLifeFromFile_lines (fs : filesystem) (path : string)
    (first : list byte) (rest : list (list byte)) (tail : list byte) :
  Forall is_line (first :: rest) ->
  Forall (fun l => len l = len first) rest ->
  newline ∉ tail ->
  len (concat (first :: rest)) <= max_len ->
  fs path = Value (concat (first :: rest) ++ tail) ->
  NewLifeFromFile fs path =
    Ok (Value (loaded (map bytesToBool (first :: rest)) (len first))).
Proof.
  intros Hlines Hlens Htail Hmax Hfs.
  pose proof (lines_length _ Hlines) as Hcount.
  pose proof (line_length (first :: rest) first (list_elem_of_here _ _)) as Hwidth.
  apply Forall_cons in Hlines as [Hfirst Hrest].
  pose proof (is_line_nonempty _ Hfirst) as Hpos.
  unfold NewLifeFromFile. rewrite Hfs. cbn [concat]. rewrite <- app_assoc.
  rewrite ReadBytes_line by done.
  rewrite read_rows_lines by done.
  rewrite (read_rows_eof _ _ tail tail [] "EOF")
    by now apply ReadBytes_unterminated.
  cbn [app map].
  rewrite (NewLife_ok _ _ _ (bytesToBool first)).
  - reflexivity.
  - unfold len in *. cbn [length] in *. rewrite length_map. lia.
  - lia.
  - reflexivity.
  - reflexivity.
  - unfold len, bytesToBool. now rewrite length_map.
Qed.

Lemma loaded_cell (lines : list (list byte)) (width : Z) (i j : Z) :
  cell (cur (loaded (map bytesToBool lines) width)) i j = true <->
  exists line, lines !! Z.to_nat i = Some line /\
               line !! Z.to_nat j = Some glyph_o.
Proof.
  unfold cell, loaded; cbn [cur cs]. rewrite lookup_map.
  destruct (lines !! Z.to_nat i) as [line|] eqn:Hline; cbn.
  - unfold bytesToBool. rewrite lookup_map.
    destruct (line !! Z.to_nat j) as [c|] eqn:Hc; cbn.
    + split.
      * intros E. apply Byte.byte_dec_bl in E.
        exists line. split; [done|]. now rewrite Hc, E.
      * intros (line' & [= <-] & Hc'). rewrite Hc in Hc'.
        injection Hc' as ->. reflexivity.
    + split; [done|]. intros (line' & [= <-] & Hc'). congruence.
  - split; [done|]. now intros (line' & ? & _).
Qed.

(** C6. A file with no terminated line at all, the empty file among them,
    is refused (with [io.EOF]); a file of terminated lines one of which
    differs in length from the first is refused with
    ["column size is not appropriate"]; a file of [H] terminated lines that
    all have [W] bytes, terminator included, loads as an [H] by [W] grid in
    which a cell is alive exactly when the byte at its position is ['o']. *)
Theorem NewLifeFromFile_loads (fs : filesystem) (path : string) :
  (forall tail,
     newline ∉ tail -> fs path = Value tail ->
     NewLifeFromFile fs path = Ok (Error "EOF")) /\
  (forall first rest,
     Forall is_line (first :: rest) ->
     Exists (fun l => len l <> len first) rest ->
     fs path = Value (concat (first :: rest)) ->
     NewLifeFromFile fs path = Ok (Error "column size is not appropriate")) /\
  (forall lines H W,
     Forall is_line lines -> len lines = H -> 1 <= H ->
     Forall (fun l => len l = W) lines ->
     len (concat lines) <= max_len ->
     fs path = Value (concat lines) ->
     exists l,
       NewLifeFromFile fs path = Ok (Value l) /\
       wf_field (cur l) /\ h (cur l) = H /\ w (cur l) = W /\
       forall i j, 0 <= i < H -> 0 <= j < W ->
         (cell (cur l) i j = true <->
          exists line, lines !! Z.to_nat i = Some line /\
                       line !! Z.to_nat j = Some glyph_o)).
Proof.
  split; [|split].
  - intros tail Htail Hfs. unfold NewLifeFromFile.
    now rewrite Hfs, ReadBytes_unterminated.
  - intros first rest Hlines Hbad Hfs.
    apply Forall_cons in Hlines as [Hfirst Hrest].
    unfold NewLifeFromFile. rewrite Hfs. cbn [concat].
    rewrite ReadBytes_line by done.
    now rewrite read_rows_short_line.
  - intros lines H W Hlines HH Hpos Hlens Hmax Hfs.
    destruct lines as [|first rest]; [unfold len in HH; cbn in HH; lia|].
    pose proof (Forall_inv Hlens) as HW. cbn in HW. subst W.
    pose proof (lines_length _ Hlines) as Hcount.
    pose proof (line_length (first :: rest) first (list_elem_of_here _ _)) as Hwidth.
    pose proof (is_line_nonempty _ (Forall_inv Hlines)) as Hfirst.
    exists (loaded (map bytesToBool (first :: rest)) (len first)).
    split; [|split; [|split; [|split]]].
    + apply (NewLifeFromFile_lines fs path first rest []); try done.
      * now apply Forall_inv_tail in Hlens.
      * apply not_elem_of_nil.
      * now rewrite app_nil_r.
    + apply init_wf.
      * unfold len in *. rewrite length_map. lia.
      * lia.
      * reflexivity.
      * apply Forall_forall. intros row Hrow.
        apply list_elem_of_In, in_map_iff in Hrow as (line & <- & Hline).
        unfold len, bytesToBool. rewrite length_map.
        apply list_elem_of_In in Hline.
        exact (proj1 (Forall_forall _ _) Hlens line Hline).
    + unfold loaded; cbn [cur h]. unfold len in *.
      rewrite length_map. exact HH.
    + reflexivity.
    + intros i j _ _. apply loaded_cell.
Qed.

(** C9. Bytes after the last line terminator are read, found to end
    without a terminator, and dropped without any error: the loaded grid
    has one row per terminated line. *)
Theorem NewLifeFromFile_drops_unterminated_line (fs : filesystem)
    (path : string) (first : list byte) (rest : list (list byte))
    (tail : list byte) :
  Forall is_line (first :: rest) ->
  Forall (fun l => len l = len first) rest ->
  tail <> [] -> newline ∉ tail ->
  len (concat (first :: rest) ++ tail) <= max_len ->
  fs path = Value (concat (first :: rest) ++ tail) ->
  exists l,
    NewLifeFromFile fs path = Ok (Value l) /\
    cs (cur l) = map bytesToBool (first :: rest) /\
    h (cur l) = len (first :: rest) /\ w (cur l) = len first.
Proof.
  intros Hlines Hlens _ Htail Hmax Hfs.
  exists (loaded (map bytesToBool (first :: rest)) (len first)).
  split; [|split; [reflexivity|split; [|reflexivity]]].
  - apply (NewLifeFromFile_lines fs path first rest tail); try done.
    unfold len in *. rewrite length_app in Hmax. lia.
  - unfold loaded; cbn [cur h]. unfold len. now rewrite length_map.
Qed.

Lemma terminated_line (body : list byte) :
  forallb (fun c => negb (Byte.eqb c newline)) body = true ->
  is_line (body ++ [newline]).
Proof.
  intros Hbody. exists body. split; [reflexivity|].
  intros Hin. apply list_elem_of_In in Hin.
  rewrite forallb_forall in Hbody. specialize (Hbody _ Hin).
  now rewrite (Byte.byte_dec_lb (x:=newline) eq_refl) in Hbody.
Qed.

Lemma file_2x4_lines : Forall is_line file_2x4.
Proof.
  repeat constructor.
  - now apply (terminated_line [x6f; x20; x6f]).
  - now apply (terminated_line [x20; x6f; x6f]).
Qed.

Lemma file_ragged_lines : Forall is_line file_ragged.
Proof.
  repeat constructor.
  - now apply (terminated_line [x6f; x20; x6f]).
  - now apply (terminated_line [x20; x6f]).
Qed.

Lemma NewLifeFromFile_loads_witness :
  NewLifeFromFile (fun _ => Value []) "init.txt" = Ok (Error "EOF") /\
  NewLifeFromFile (fun _ => Value (concat file_ragged)) "init.txt" =
    Ok (Error "column size is not appropriate") /\
  exists l,
    NewLifeFromFile (fun _ => Value (concat file_2x4)) "init.txt" = Ok (Value l) /\
    wf_field (cur l) /\ h (cur l) = 2 /\ w (cur l) = 4 /\
    forall i j, 0 <= i < 2 -> 0 <= j < 4 ->
      (cell (cur l) i j = true <->
       exists line, file_2x4 !! Z.to_nat i = Some line /\
                    line !! Z.to_nat j = Some glyph_o).
Proof.
  split; [|split].
  - apply (proj1 (NewLifeFromFile_loads (fun _ => Value []) "init.txt") []).
    + apply not_elem_of_nil.
    + reflexivity.
  - apply (proj1 (proj2 (NewLifeFromFile_loads
                           (fun _ => Value (concat file_ragged)) "init.txt"))
             [x6f; x20; x6f; x0a] [[x20; x6f; x0a]]).
    + exact file_ragged_lines.
    + constructor. vm_compute. discriminate.
    + reflexivity.
  - apply (proj2 (proj2 (NewLifeFromFile_loads
                           (fun _ => Value (concat file_2x4)) "init.txt"))
             file_2x4 2 4).
    + exact file_2x4_lines.
    + reflexivity.
    + lia.
    + repeat constructor.
    + vm_compute. discriminate.
    + reflexivity.
Defined.

Lemma NewLifeFromFile_drops_unterminated_line_witness :
  exists l,
    NewLifeFromFile (fun _ => Value (concat file_2x4 ++ [x6f; x6f])) "init.txt" =
      Ok (Value l) /\
    cs (cur l) = map bytesToBool file_2x4 /\
    h (cur l) = 2 /\ w (cur l) = 4.
Proof.
  apply (NewLifeFromFile_drops_unterminated_line
           (fun _ => Value (concat file_2x4 ++ [x6f; x6f])) "init.txt"
           [x6f; x20; x6f; x0a] [[x20; x6f; x6f; x0a]] [x6f; x6f]).
  - exact file_2x4_lines.
  - repeat constructor.
  - discriminate.
  - intros Hin. apply list_elem_of_In in Hin. cbn in Hin.
    destruct Hin as [Hin|[Hin|[]]]; discriminate.
  - vm_compute. discriminate.
  - reflexivity.
Defined.

(** ** Patterns on the torus *)

Lemma field_eq (f g : Field) :
  cs f = cs g -> w f = w g -> h f = h g -> f = g.
Proof. destruct f, g; cbn. now intros -> -> ->. Qed.

Lemma grid_lookup (hh ww : Z) (p : Z -> Z -> bool) (i j : Z) :
  0 <= i < hh -> 0 <= j < ww ->
  exists row, grid hh ww p !! Z.to_nat i = Some row /\
              row !! Z.to_nat j = Some (p i j).
Proof.
  intros Hi Hj. unfold grid. eexists. split.
  - rewrite lookup_map, (lookup_seqZ_lt 0 hh (Z.to_nat i)) by lia. cbn.
    rewrite Z2Nat.id by lia. reflexivity.
  - rewrite lookup_map, (lookup_seqZ_lt 0 ww (Z.to_nat j)) by lia. cbn.
    now rewrite Z2Nat.id by lia.
Qed.

Lemma grid_cell (hh ww : Z) (p : Z -> Z -> bool) (i j : Z) :
  0 <= i < hh -> 0 <= j < ww ->
  cell {| cs := grid hh ww p; w := ww; h := hh |} i j = p i j.
Proof.
  intros Hi Hj. destruct (grid_lookup hh ww p i j Hi Hj) as (row & Hrow & Hb).
  unfold cell; cbn [cs]. now rewrite Hrow, Hb.
Qed.

Lemma grid_wf (hh ww : Z) (p : Z -> Z -> bool) :
  1 <= hh <= max_len -> 1 <= ww <= max_len ->
  wf_field {| cs := grid hh ww p; w := ww; h := hh |}.
Proof.
  intros Hh Hw. unfold wf_field, grid; cbn.
  split; [done|]. split; [done|]. split.
  - now rewrite length_map, length_seqZ.
  - apply Forall_forall. intros row Hrow.
    apply list_elem_of_In, in_map_iff in Hrow as (i & <- & _).
    now rewrite length_map, length_seqZ.
Qed.

(** A well-formed field is the grid of its cells. *)
Lemma field_is_grid (f : Field) (p : Z -> Z -> bool) :
  wf_field f ->
  (forall i j, in_bounds f i j -> cell f i j = p i j) ->
  cs f = grid (h f) (w f) p.
Proof.
  intros Hwf Hcells. pose proof Hwf as (Hh & Hw & Hlen & Hrows).
  apply list_eq. intros i.
  destruct (decide (i < Z.to_nat (h f))%nat) as [Hi|Hi].
  - destruct (wf_row f (Z.of_nat i) Hwf) as (row & Hrow & Hrowlen); [lia|].
    destruct (grid_lookup (h f) (w f) p (Z.of_nat i) 0) as (row' & Hrow' & _);
      [lia | lia |].
    rewrite Nat2Z.id in Hrow, Hrow'. rewrite Hrow, Hrow'. f_equal.
    apply list_eq. intros j.
    destruct (decide (j < Z.to_nat (w f))%nat) as [Hj|Hj].
    + destruct (wf_cell f (Z.of_nat i) (Z.of_nat j) Hwf) as (r1 & Hr1 & Hc1);
        [unfold in_bounds; lia|].
      destruct (grid_lookup (h f) (w f) p (Z.of_nat i) (Z.of_nat j))
        as (r2 & Hr2 & Hc2); [lia | lia |].
      rewrite Nat2Z.id in Hr1, Hr2, Hc1, Hc2.
      assert (r1 = row) by congruence. assert (r2 = row') by congruence.
      subst. rewrite Hc1, Hc2. f_equal. apply Hcells. unfold in_bounds. lia.
    + rewrite !lookup_ge_None_2; [done| |lia].
      unfold grid in Hrow'. rewrite lookup_map in Hrow'.
      destruct (seqZ 0 (h f) !! i); [|done]. injection Hrow' as <-.
      rewrite length_map, length_seqZ. lia.
  - rewrite !lookup_ge_None_2; [done| |lia].
    unfold grid. rewrite length_map, length_seqZ. lia.
Qed.

(** One generation of a well-formed square pair of buffers holding the
    pattern [p], when [q] is what the rule makes of [p] on the torus. *)
Lemma Next_grid (n g : Z) (p q : Z -> Z -> bool) (nxt : Field) :
  1 <= n <= max_len ->
  wf_field nxt -> h nxt = n -> w nxt = n ->
  (forall i j, 0 <= i < n -> 0 <= j < n ->
     step_cell {| cs := grid n n p; w := n; h := n |} i j = q i j) ->
  Next {| cur := {| cs := grid n n p; w := n; h := n |}; next := nxt; gen := g |} =
    Ok (tt, {| cur := {| cs := grid n n q; w := n; h := n |};
               next := blank n n; gen := int_add g 1 |}).
Proof.
  intros Hn Hwf Hh Hw Hstep.
  destruct (Next_effect {| cur := {| cs := grid n n p; w := n; h := n |};
                           next := nxt; gen := g |})
    as (f' & HN & Hwf' & Hh' & Hw' & Hcells).
  - cbn. now apply grid_wf.
  - exact Hwf.
  - cbn [cur next gen] in *. rewrite HN, Hh, Hw. do 3 f_equal.
    rewrite Hh in Hh'. rewrite Hw in Hw'.
    apply field_eq; cbn; [|done|done].
    rewrite (field_is_grid f' q Hwf'); [now rewrite Hh', Hw'|].
    intros i j [Hi Hj]. rewrite Hh' in Hi. rewrite Hw' in Hj.
    rewrite Hcells by lia. unfold in_boundsb; cbn [h w]. rewrite Hh, Hw.
    destruct ((0 <=? i) && (i <? n) && (0 <=? j) && (j <? n) &&
              ((0 <=? i) && (i <? n) && (0 <=? j) && (j <? n))) eqn:E; [|lia].
    now apply Hstep.
Qed.

(** *** The beacon *)

Lemma clamp_torus (n i d : Z) :
  6 <= n -> 0 <= i < n -> -1 <= d <= 1 ->
  clamp ((i + d) mod n) = clamp (Z.min i 6 + d).
Proof.
  intros Hn Hi Hd. unfold clamp.
  assert (Hcases : (i + d = -1 /\ (i + d) mod n = n - 1) \/
                   (i + d = n /\ (i + d) mod n = 0) \/
                   (0 <= i + d < n /\ (i + d) mod n = i + d)).
  { destruct (Z.eq_dec (i + d) (-1)) as [E|]; [left; split; [done|]|].
    - rewrite E. symmetry. apply (Z.mod_unique_pos _ _ (-1)); lia.
    - destruct (Z.eq_dec (i + d) n) as [E|]; [right; left; split; [done|]|].
      + rewrite E. apply Z_mod_same_full.
      + right; right. split; [lia|]. apply Z.mod_small. lia. }
  destruct Hcases as [[E1 E2]|[[E1 E2]|[E1 E2]]]; rewrite E2;
    destruct ((1 <=? Z.min i 6 + d) && (Z.min i 6 + d <=? 4)) eqn:Ea;
    match goal with
    | |- context [(1 <=? ?x) && (?x <=? 4)] =>
        destruct ((1 <=? x) && (x <=? 4)) eqn:Eb
    end; lia.
Qed.

Lemma pattern_at_clamp (cells : list (Z * Z)) (a b : Z) :
  Forall (fun c => 1 <= c.1 <= 4 /\ 1 <= c.2 <= 4) cells ->
  pattern_at cells a b = pattern_at cells (clamp a) (clamp b).
Proof.
  unfold pattern_at. induction 1 as [|c cells [Hc1 Hc2] _ IH]; cbn; [done|].
  rewrite IH. f_equal. unfold clamp.
  destruct ((1 <=? a) && (a <=? 4)) eqn:Ea;
    destruct ((1 <=? b) && (b <=? 4)) eqn:Eb;
    destruct (Z.eqb_spec (c.1) a); destruct (Z.eqb_spec (c.2) b);
    destruct (Z.eqb_spec (c.1) 0); destruct (Z.eqb_spec (c.2) 0);
    cbn; try reflexivity; lia.
Qed.

Lemma pattern_on_torus (cells : list (Z * Z)) (n i j d e : Z) :
  Forall (fun c => 1 <= c.1 <= 4 /\ 1 <= c.2 <= 4) cells ->
  6 <= n -> 0 <= i < n -> 0 <= j < n -> -1 <= d <= 1 -> -1 <= e <= 1 ->
  pattern_at cells ((i + d) mod n) ((j + e) mod n) =
  pattern_at cells (Z.min i 6 + d) (Z.min j 6 + e).
Proof.
  intros Hcells Hn Hi Hj Hd He.
  rewrite (pattern_at_clamp cells ((i + d) mod n)) by done.
  rewrite (pattern_at_clamp cells (Z.min i 6 + d)) by done.
  now rewrite !clamp_torus by done.
Qed.

Lemma step_on_torus (cells : list (Z * Z)) (n i j : Z) :
  Forall (fun c => 1 <= c.1 <= 4 /\ 1 <= c.2 <= 4) cells ->
  6 <= n <= max_len -> 0 <= i < n -> 0 <= j < n ->
  step_cell {| cs := grid n n (pattern_at cells); w := n; h := n |} i j =
  plane_step (pattern_at cells) (Z.min i 6) (Z.min j 6).
Proof.
  intros Hcells Hn Hi Hj.
  assert (Htorus : forall d e, -1 <= d <= 1 -> -1 <= e <= 1 ->
            torus_cell {| cs := grid n n (pattern_at cells); w := n; h := n |}
              (i + d) (j + e) =
            pattern_at cells (Z.min i 6 + d) (Z.min j 6 + e)).
  { intros d e Hd He. unfold torus_cell; cbn [h w].
    rewrite grid_cell by (apply Z.mod_pos_bound; lia).
    apply pattern_on_torus; (done || lia). }
  unfold step_cell, plane_step, live_neighbours, offsets8.
  cbn [List.filter fst snd].
  rewrite !Htorus by lia.
  rewrite grid_cell by done.
  pose proof (Htorus 0 0 ltac:(lia) ltac:(lia)) as H0.
  unfold torus_cell in H0; cbn [h w] in H0.
  rewrite !Z.add_0_r, !Z.mod_small, grid_cell in H0 by lia.
  now rewrite H0.
Qed.

Lemma beacon_cells_box :
  Forall (fun c : Z * Z => 1 <= c.1 <= 4 /\ 1 <= c.2 <= 4) beacon_cells.
Proof. repeat constructor; cbn; lia. Qed.

Lemma beacon_full_cells_box :
  Forall (fun c : Z * Z => 1 <= c.1 <= 4 /\ 1 <= c.2 <= 4) beacon_full_cells.
Proof. repeat constructor; cbn; lia. Qed.

Lemma pattern_at_min (cells : list (Z * Z)) (i j : Z) :
  Forall (fun c => 1 <= c.1 <= 4 /\ 1 <= c.2 <= 4) cells ->
  pattern_at cells (Z.min i 6) (Z.min j 6) = pattern_at cells i j.
Proof.
  intros Hcells.
  rewrite (pattern_at_clamp cells (Z.min i 6)), (pattern_at_clamp cells i) by done.
  assert (Hc : forall x, clamp (Z.min x 6) = clamp x).
  { intros x. unfold clamp.
    destruct ((1 <=? Z.min x 6) && (Z.min x 6 <=? 4)) eqn:Ea;
      destruct ((1 <=? x) && (x <=? 4)) eqn:Eb; lia. }
  now rewrite !Hc.
Qed.

Ltac seven_cases t :=
  let H := fresh "H" in
  assert (H : t = 0 \/ t = 1 \/ t = 2 \/ t = 3 \/ t = 4 \/ t = 5 \/ t = 6) by lia;
  destruct H as [->|[->|[->|[->|[->|[->| ->]]]]]].

(** On the plane the two phases of the beacon follow each other. *)
Lemma beacon_plane_step (t u : Z) :
  0 <= t <= 6 -> 0 <= u <= 6 ->
  plane_step (pattern_at beacon_cells) t u = pattern_at beacon_full_cells t u /\
  plane_step (pattern_at beacon_full_cells) t u = pattern_at beacon_cells t u.
Proof.
  intros Ht Hu. seven_cases t; seven_cases u; split; vm_compute; reflexivity.
Qed.

Lemma beacon_torus_step (n i j : Z) :
  6 <= n <= max_len -> 0 <= i < n -> 0 <= j < n ->
  step_cell {| cs := grid n n (pattern_at beacon_cells); w := n; h := n |} i j =
    pattern_at beacon_full_cells i j /\
  step_cell {| cs := grid n n (pattern_at beacon_full_cells); w := n; h := n |} i j =
    pattern_at beacon_cells i j.
Proof.
  intros Hn Hi Hj.
  rewrite !step_on_torus
    by (done || apply beacon_cells_box || apply beacon_full_cells_box).
  destruct (beacon_plane_step (Z.min i 6) (Z.min j 6)) as [H1 H2]; [lia|lia|].
  rewrite H1, H2.
  rewrite (pattern_at_min _ i j beacon_cells_box).
  now rewrite (pattern_at_min _ i j beacon_full_cells_box).
Qed.

(** C7. On every square grid of side [n >= 6] the life built from the
    six-cell beacon is back at the initial field after two calls of
    [Next], and is not there after one. *)
Theorem beacon_period_two (n : Z) :
  6 <= n <= max_len ->
  exists l0 l1 l2,
    NewLife n n (beacon n) = Ok (Value l0) /\
    cs (cur l0) = beacon n /\
    Next l0 = Ok (tt, l1) /\ Next l1 = Ok (tt, l2) /\
    cur l2 = cur l0 /\ cs (cur l1) <> beacon n.
Proof.
  intros Hn.
  pose proof (grid_wf n n (pattern_at beacon_cells)) as (_ & _ & Hlen & _);
    [lia | lia |]. cbn [cs h] in Hlen.
  destruct (grid_lookup n n (pattern_at beacon_cells) 0 0)
    as (row0 & Hrow0 & _); [lia | lia |].
  pose proof (wf_row _ 0 (grid_wf n n (pattern_at beacon_cells)
                            ltac:(lia) ltac:(lia)) ltac:(cbn; lia))
    as (row0' & Hrow0' & Hrowlen). cbn [cs w] in Hrow0', Hrowlen.
  assert (row0' = row0) as -> by congruence.
  exists {| cur := {| cs := beacon n; w := n; h := n |};
            next := blank n n; gen := 0 |}.
  exists {| cur := {| cs := grid n n (pattern_at beacon_full_cells);
                      w := n; h := n |};
            next := blank n n; gen := int_add 0 1 |}.
  exists {| cur := {| cs := beacon n; w := n; h := n |};
            next := blank n n; gen := int_add (int_add 0 1) 1 |}.
  split; [|split; [reflexivity|split; [|split; [|split; [reflexivity|]]]]].
  - apply (NewLife_ok n n _ row0); unfold beacon, len; try lia; try done.
  - unfold beacon. apply Next_grid; try lia.
    + apply blank_wf; lia.
    + reflexivity.
    + reflexivity.
    + intros i j Hi Hj. now apply beacon_torus_step.
  - unfold beacon. apply Next_grid; try lia.
    + apply blank_wf; lia.
    + reflexivity.
    + reflexivity.
    + intros i j Hi Hj. now apply beacon_torus_step.
  - cbn [cur cs]. unfold beacon. intros Heq.
    pose proof (grid_cell n n (pattern_at beacon_full_cells) 2 2
                  ltac:(lia) ltac:(lia)) as Hfull.
    pose proof (grid_cell n n (pattern_at beacon_cells) 2 2
                  ltac:(lia) ltac:(lia)) as Hsix.
    unfold cell in Hfull, Hsix. cbn [cs] in Hfull, Hsix.
    rewrite Heq, Hsix in Hfull. discriminate Hfull.
Qed.

Lemma beacon_period_two_witness :
  exists l0 l1 l2,
    NewLife 6 6 (beacon 6) = Ok (Value l0) /\
    cs (cur l0) = beacon 6 /\
    Next l0 = Ok (tt, l1) /\ Next l1 = Ok (tt, l2) /\
    cur l2 = cur l0 /\ cs (cur l1) <> beacon 6.
Proof.
  apply (beacon_period_two 6). unfold max_len. lia.
Defined.

(** ** The program at work *)

(** [main] of the second revision: the beacon on a 10x10 grid. *)
Example beacon_10x10 :
  match NewLife 10 10 (beacon 10) with
  | Ok (Value l0) =>
      match Next l0 with
      | Ok (_, l1) =>
          match Next l1 with
          | Ok (_, l2) =>
              cs (cur l1) = grid 10 10 (pattern_at beacon_full_cells) /\
              cs (cur l2) = beacon 10 /\ gen l2 = 2
          | Panic _ => False
          end
      | Panic _ => False
      end
  | _ => False
  end.
Proof. vm_compute. repeat split. Qed.

(** The sum [r + f.h] wraps around at the top of the range of [int]. *)
Example Alive_near_int_max :
  Alive (int_max - 1) 0 grid3 = Panic IndexOutOfRange.
Proof. vm_compute. reflexivity. Qed.

(** A blinker on a 5x5 torus turns from horizontal to vertical. *)
Example blinker_5x5 :
  let horizontal := pattern_at [(2, 1); (2, 2); (2, 3)] in
  let vertical := pattern_at [(1, 2); (2, 2); (3, 2)] in
  Next {| cur := {| cs := grid 5 5 horizontal; w := 5; h := 5 |};
          next := blank 5 5; gen := 0 |} =
    Ok (tt, {| cur := {| cs := grid 5 5 vertical; w := 5; h := 5 |};
               next := blank 5 5; gen := 1 |}).
Proof. vm_compute. reflexivity. Qed.

(** ** What the operations leave alone *)

Lemma lift_Ok {S A : Type} (r : result A) (s s' : S) (a : A) :
  lift r s = Ok (a, s') -> r = Ok a /\ s' = s.
Proof. unfold lift. destruct r; [intros [= -> ->]; done | discriminate]. Qed.

Lemma bind_inv {S A B : Type} (m : M S A) (k : A -> M S B) (s s2 : S) (b : B) :
  bind m k s = Ok (b, s2) ->
  exists a s1, m s = Ok (a, s1) /\ k a s1 = Ok (b, s2).
Proof.
  unfold bind. destruct (m s) as [[a s1]|]; [|discriminate]. eauto.
Qed.

Lemma Alive_pure (f f' : Field) (r c : Z) (b : bool) :
  Alive r c f = Ok (b, f') -> f' = f.
Proof.
  unfold Alive. intros H.
  apply bind_inv in H as (f0 & s0 & [= <- <-] & H).
  apply bind_inv in H as (r' & s1 & H1 & H). apply lift_Ok in H1 as [_ ->].
  apply bind_inv in H as (c' & s2 & H2 & H). apply lift_Ok in H2 as [_ ->].
  apply bind_inv in H as (row & s3 & H3 & H). apply lift_Ok in H3 as [_ ->].
  now apply lift_Ok in H as [_ ->].
Qed.

Lemma for_from_pure {S A : Type} (body : Z -> A -> M S A) :
  (forall i acc s a s', body i acc s = Ok (a, s') -> s' = s) ->
  forall n i acc s a s', for_from n i acc body s = Ok (a, s') -> s' = s.
Proof.
  intros Hbody. induction n as [|n IH]; intros i acc s a s'; cbn [for_from].
  - now intros [= _ <-].
  - intros H. apply bind_inv in H as (acc' & s1 & H1 & H).
    apply Hbody in H1 as ->. now apply IH in H.
Qed.

Lemma NextGen_pure (f f' : Field) (r c : Z) (b : bool) :
  NextGen r c f = Ok (b, f') -> f' = f.
Proof.
  unfold NextGen. intros H.
  apply bind_inv in H as (alive & s1 & H1 & H).
  assert (s1 = f) as ->.
  { revert H1. unfold for_int. apply for_from_pure.
    intros i acc s a s'. apply for_from_pure.
    intros j acc' s0 a' s0'.
    destruct (negb (i =? 0) || negb (j =? 0)).
    - intros H0. apply bind_inv in H0 as (x & s2 & H2 & H0).
      apply Alive_pure in H2 as ->. now injection H0 as _ <-.
    - now intros [= _ <-]. }
  destruct (alive =? 3); [now injection H as _ <-|].
  destruct (alive =? 2); [now apply Alive_pure in H|now injection H as _ <-].
Qed.

Lemma Set_shape (f f' : Field) (r c : Z) (b : bool) (e : error) :
  Set_ r c b f = Ok (e, f') ->
  h f' = h f /\ w f' = w f /\ length (cs f') = length (cs f).
Proof.
  unfold Set_. intros H.
  apply bind_inv in H as (f0 & s0 & [= <- <-] & H).
  destruct ((r <? 0) || (r >=? h f) || (c <? 0) || (c >=? w f)).
  - now injection H as _ <-.
  - apply bind_inv in H as (row & s1 & H1 & H). apply lift_Ok in H1 as [_ ->].
    apply bind_inv in H as (x & s2 & H2 & H). apply lift_Ok in H2 as [_ ->].
    apply bind_inv in H as (u & s3 & [= _ <-] & H).
    injection H as _ <-. cbn. now rewrite length_insert.
Qed.

(** A property that every iteration keeps is kept by the loop. *)
Lemma range_from_keeps {S A : Type} (P : S -> Prop) (body : Z -> A -> M S unit) :
  (forall i x s s', body i x s = Ok (tt, s') -> P s -> P s') ->
  forall l i s s', range_from i l body s = Ok (tt, s') -> P s -> P s'.
Proof.
  intros Hbody. induction l as [|x l IH]; intros i s s'; cbn [range_from].
  - now intros [= <-].
  - intros H HP. apply bind_inv in H as ([] & s1 & H1 & H).
    eapply IH; [exact H|]. eapply Hbody; eauto.
Qed.

Lemma NewField_inv (h0 w0 : Z) (f : Field) :
  NewField h0 w0 = Ok f -> f = blank h0 w0.
Proof.
  intros H.
  destruct (decide (0 <= h0 <= max_len)) as [Hh|Hh].
  - destruct (decide (h0 = 0)) as [->|Hh0].
    + cbn in H. now injection H as <-.
    + destruct (decide (0 <= w0 <= max_len)) as [Hw|Hw].
      * rewrite NewField_ok in H by done. now injection H as <-.
      * exfalso. unfold NewField in H. rewrite make_ok in H by done.
        destruct (Z.to_nat h0) as [|n] eqn:En; [lia|].
        unfold for_range in H. cbn [replicate range_from] in H.
        unfold bind at 1 in H. unfold bind at 1 in H. unfold get at 1 in H.
        unfold bind at 1 in H. unfold lift at 1, make at 1 in H.
        destruct ((w0 <? 0) || (max_len <? w0)) eqn:E; [discriminate|lia].
  - exfalso. unfold NewField, make in H.
    destruct ((h0 <? 0) || (max_len <? h0)) eqn:E; [discriminate|lia].
Qed.

(** Where [NewField] panics. *)
Lemma NewField_panics (h0 w0 : Z) :
  ~ (0 <= h0 <= max_len /\ (h0 = 0 \/ 0 <= w0 <= max_len)) ->
  NewField h0 w0 = Panic MakesliceLen.
Proof.
  intros Hbad. unfold NewField, make at 1.
  destruct ((h0 <? 0) || (max_len <? h0)) eqn:E; [reflexivity|].
  destruct (Z.to_nat h0) as [|n] eqn:En; [lia|].
  unfold for_range. cbn [replicate range_from].
  unfold bind at 1. unfold bind at 1. unfold get at 1.
  unfold bind at 1. unfold lift at 1, make at 1.
  destruct ((w0 <? 0) || (max_len <? w0)) eqn:E'; [reflexivity|lia].
Qed.

(** ** Any number of generations *)

Lemma Next_inv_any (l l' : Life) :
  Next l = Ok (tt, l') ->
  gen l' = int_add (gen l) 1 /\
  h (cur l') = h (next l) /\ w (cur l') = w (next l) /\
  length (cs (cur l')) = length (cs (next l)) /\
  next l' = blank (w (cur l')) (h (cur l')).
Proof.
  unfold Next. intros H.
  apply bind_inv in H as (l0 & s0 & [= <- <-] & H).
  apply bind_inv in H as ([] & s1 & Hloop & H).
  assert (Hkeep : gen s1 = gen l /\ h (next s1) = h (next l) /\
                  w (next s1) = w (next l) /\
                  length (cs (next s1)) = length (cs (next l))).
  { set (P := fun s : Life =>
                gen s = gen l /\ h (next s) = h (next l) /\
                w (next s) = w (next l) /\
                length (cs (next s)) = length (cs (next l))).
    change (P s1). unfold for_range in Hloop.
    eapply (range_from_keeps P); [|exact Hloop|unfold P; done].
    intros i row s s'. unfold for_range. apply (range_from_keeps P).
    intros j x t t' Hbody (Hg & Hh & Hw & Hlen).
    apply bind_inv in Hbody as (b & t1 & Hb & Hbody).
    unfold on_cur in Hb. destruct (NextGen i j (cur t)) as [[b0 f0]|] eqn:EN;
      [|discriminate]. injection Hb as -> <-.
    apply bind_inv in Hbody as (e & t2 & He & Hbody).
    unfold on_next in He. cbn [next cur gen] in He.
    destruct (Set_ i j b (next t)) as [[e0 f1]|] eqn:ES; [|discriminate].
    injection He as -> <-. injection Hbody as <-. unfold P; cbn [gen next].
    apply Set_shape in ES as (Hh' & Hw' & Hlen').
    repeat split; congruence. }
  destruct Hkeep as (Hg & Hh & Hw & Hlen).
  apply bind_inv in H as (l1 & s2 & [= <- <-] & H).
  apply bind_inv in H as ([] & s3 & [= <-] & H).
  apply bind_inv in H as (l2 & s4 & [= <- <-] & H).
  cbn [cur next gen] in H.
  apply bind_inv in H as (fresh & s5 & Hfresh & H).
  apply lift_Ok in Hfresh as [Hfresh ->].
  apply NewField_inv in Hfresh as ->.
  apply bind_inv in H as (l3 & s6 & [= <- <-] & H).
  apply bind_inv in H as ([] & s7 & [= <-] & H).
  apply bind_inv in H as (l4 & s8 & [= <- <-] & H).
  injection H as <-. cbn [cur next gen].
  rewrite Hg. repeat split; done.
Qed.

Lemma Next_wf (l : Life) :
  wf_life l ->
  exists l', Next l = Ok (tt, l') /\ wf_life l' /\
    gen l' = int_add (gen l) 1 /\
    h (cur l') = h (next l) /\ w (cur l') = w (next l) /\
    h (next l') = w (next l) /\ w (next l') = h (next l).
Proof.
  intros [Hc Hn].
  destruct (Next_effect l Hc Hn) as (f' & HN & Hwf' & Hh' & Hw' & _).
  pose proof Hn as (Hhn & Hwn & _).
  eexists. split; [exact HN|]. unfold wf_life; cbn [cur next gen].
  split; [split; [done|apply blank_wf; lia]|].
  repeat split; done.
Qed.

Lemma wrap_add_l (a b : Z) : wrap (wrap a + b) = wrap (a + b).
Proof.
  unfold wrap.
  replace ((a - int_min) mod int_mod + int_min + b - int_min)
    with ((a - int_min) mod int_mod + b) by lia.
  replace (a + b - int_min) with ((a - int_min) + b) by lia.
  now rewrite Zplus_mod_idemp_l.
Qed.

Lemma wrap_is_int (z : Z) : is_int (wrap z).
Proof.
  unfold is_int, wrap, int_min, int_max, int_mod.
  pose proof (Z.mod_pos_bound (z - -9223372036854775808) 18446744073709551616).
  lia.
Qed.

Lemma rounds_S {S : Type} (k : nat) (body : M S unit) (s s1 : S) :
  body s = Ok (tt, s1) -> rounds (Datatypes.S k) body s = rounds k body s1.
Proof. intros Hb. cbn [rounds]. unfold bind. now rewrite Hb. Qed.

(** [k] calls of [Next] on well-formed buffers: no panic, and the
    dimensions of the two buffers as they alternate. *)
Lemma rounds_Next_wf (k : nat) (l : Life) :
  wf_life l -> is_int (gen l) ->
  exists l', rounds k Next l = Ok (tt, l') /\ wf_life l' /\
    gen l' = wrap (gen l + Z.of_nat k) /\
    (h (next l'), w (next l')) =
      (if Nat.even k then (h (next l), w (next l))
       else (w (next l), h (next l))) /\
    (k <> 0%nat ->
     (h (cur l'), w (cur l')) =
       (if Nat.even k then (w (next l), h (next l))
        else (h (next l), w (next l)))).
Proof.
  revert l. induction k as [|k IH]; intros l Hwf Hgen.
  - exists l. split; [reflexivity|]. split; [done|].
    split; [rewrite Z.add_0_r; symmetry; now apply wrap_small|].
    split; [reflexivity | done].
  - destruct (Next_wf l Hwf) as (l1 & HN & Hwf1 & Hg1 & Hhc & Hwc & Hhn & Hwn).
    destruct (IH l1 Hwf1) as (l' & Hrun & Hwf' & Hg' & Hnext & Hcur).
    { rewrite Hg1. apply wrap_is_int. }
    exists l'. split; [now rewrite (rounds_S k Next l l1 HN)|].
    split; [done|]. split.
    { rewrite Hg', Hg1. unfold int_add. rewrite wrap_add_l. f_equal. lia. }
    rewrite Nat.even_succ, <- Nat.negb_even.
    rewrite Hhn, Hwn in Hnext. rewrite Hhn, Hwn in Hcur.
    destruct k as [|k'].
    + cbn in *. injection Hrun as <-. split; [done|]. intros _. now rewrite Hhc, Hwc.
    + destruct (Nat.even (Datatypes.S k')); cbn [negb].
      * split; [done|]. intros _. now apply Hcur.
      * split; [done|]. intros _. now apply Hcur.
Qed.

Lemma cell_to_nat (f : Field) (i j : Z) :
  cell f i j = cell f (Z.of_nat (Z.to_nat i)) (Z.of_nat (Z.to_nat j)).
Proof. unfold cell. now rewrite !Nat2Z.id. Qed.

Lemma step_cell_dead (f : Field) (i j : Z) : all_dead f -> step_cell f i j = false.
Proof.
  intros Hdead. unfold step_cell, live_neighbours, torus_cell, offsets8.
  cbn [List.filter fst snd]. now rewrite !Hdead.
Qed.

Lemma blank_dead (h0 w0 : Z) : all_dead (blank h0 w0).
Proof.
  intros i j. unfold cell, blank; cbn [cs].
  destruct (replicate (Z.to_nat h0) (replicate (Z.to_nat w0) false) !! Z.to_nat i)
    as [row|] eqn:Hrow; [|done].
  apply lookup_replicate in Hrow as [-> _].
  destruct (replicate (Z.to_nat w0) false !! Z.to_nat j) as [b|] eqn:Hb; [|done].
  now apply lookup_replicate in Hb as [-> _].
Qed.

Lemma Next_dead (l : Life) :
  wf_life l -> all_dead (cur l) -> all_dead (next l) ->
  exists l', Next l = Ok (tt, l') /\ wf_life l' /\
    all_dead (cur l') /\ all_dead (next l').
Proof.
  intros Hwf Hc Hn. pose proof Hwf as [Hwfc Hwfn].
  destruct (Next_wf l Hwf) as (l' & HN & Hwf' & _).
  destruct (Next_effect l Hwfc Hwfn) as (f' & HN' & _ & _ & _ & Hcells).
  rewrite HN in HN'. injection HN' as ->.
  exists {| cur := f'; next := blank (w (next l)) (h (next l));
            gen := int_add (gen l) 1 |}.
  split; [done|]. split; [done|]. cbn [cur next]. split; [|apply blank_dead].
  intros i j. rewrite cell_to_nat, Hcells by lia.
  destruct (in_boundsb (cur l) _ _ && in_boundsb (next l) _ _);
    [now apply step_cell_dead | apply Hn].
Qed.

Lemma rounds_Next_dead (k : nat) (l : Life) :
  wf_life l -> all_dead (cur l) -> all_dead (next l) ->
  exists l', rounds k Next l = Ok (tt, l') /\ wf_life l' /\
    all_dead (cur l') /\ all_dead (next l').
Proof.
  revert l. induction k as [|k IH]; intros l Hwf Hc Hn.
  - exists l. split; [reflexivity|]. split; [done|]. split; done.
  - destruct (Next_dead l Hwf Hc Hn) as (l1 & HN & Hwf1 & Hc1 & Hn1).
    destruct (IH l1 Hwf1 Hc1 Hn1) as (l' & Hrun & Hrest).
    exists l'. split; [now rewrite (rounds_S k Next l l1 HN) | done].
Qed.

Lemma step_field_wf (f : Field) : wf_field f -> wf_field (step_field f).
Proof. intros (Hh & Hw & _). now apply grid_wf. Qed.

(** When the two buffers have the same dimensions, the new current field
    is the next generation of the old one. *)
Lemma Next_step_field (l : Life) :
  wf_life l -> h (next l) = h (cur l) -> w (next l) = w (cur l) ->
  Next l = Ok (tt, {| cur := step_field (cur l);
                      next := blank (w (cur l)) (h (cur l));
                      gen := int_add (gen l) 1 |}).
Proof.
  intros [Hwfc Hwfn] Hh Hw.
  destruct (Next_effect l Hwfc Hwfn) as (f' & HN & Hwf' & Hh' & Hw' & Hcells).
  rewrite HN, Hh, Hw. do 3 f_equal.
  apply field_eq; cbn [step_field cs h w]; [|congruence|congruence].
  rewrite (field_is_grid f' (step_cell (cur l)) Hwf'); [congruence|].
  intros i j [Hi Hj]. rewrite Hcells by lia. unfold in_boundsb.
  rewrite Hh' in Hi. rewrite Hw' in Hj. rewrite Hh, Hw in *.
  destruct ((0 <=? i) && (i <? h (cur l)) && (0 <=? j) && (j <? w (cur l)) &&
            ((0 <=? i) && (i <? h (cur l)) && (0 <=? j) && (j <? w (cur l))))
    eqn:E; [reflexivity | lia].
Qed.

Lemma rounds_Next_square (k : nat) (l : Life) (n : Z) :
  wf_life l -> is_int (gen l) ->
  h (cur l) = n -> w (cur l) = n -> h (next l) = n -> w (next l) = n ->
  exists nxt,
    rounds k Next l =
      Ok (tt, {| cur := Nat.iter k step_field (cur l); next := nxt;
                 gen := wrap (gen l + Z.of_nat k) |}) /\
    wf_field nxt /\ h nxt = n /\ w nxt = n /\
    wf_field (Nat.iter k step_field (cur l)) /\
    h (Nat.iter k step_field (cur l)) = n /\
    w (Nat.iter k step_field (cur l)) = n.
Proof.
  revert l. induction k as [|k IH]; intros l Hwf Hgen Hhc Hwc Hhn Hwn.
  - exists (next l). cbn [rounds Nat.iter]. destruct Hwf as [Hwfc Hwfn].
    split; [|split; [done|split; [done|split; [done|split; [done|split; done]]]]].
    rewrite Z.add_0_r, wrap_small by done. now destruct l.
  - pose proof Hwf as [Hwfc Hwfn]. pose proof Hwfc as (Hh & Hw & _).
    pose proof (Next_step_field l Hwf ltac:(congruence) ltac:(congruence)) as HN.
    destruct (IH {| cur := step_field (cur l);
                    next := blank (w (cur l)) (h (cur l));
                    gen := int_add (gen l) 1 |})
      as (nxt & Hrun & Hrest); cbn [cur next gen]; try done.
    + split; cbn [cur next]; [now apply step_field_wf | apply blank_wf; lia].
    + apply wrap_is_int.
    + rewrite (rounds_S k Next l _ HN), Hrun. exists nxt.
      cbn [cur next gen] in *. rewrite Nat.iter_succ_r.
      split; [|exact Hrest].
      do 3 f_equal. unfold int_add. rewrite wrap_add_l. f_equal. lia.
Qed.

(** ** Writes compose *)

(** Two well-formed fields of the same dimensions with the same cells are
    the same field. *)
Lemma field_ext (f g : Field) :
  wf_field f -> wf_field g -> h f = h g -> w f = w g ->
  (forall i j, in_bounds f i j -> cell f i j = cell g i j) -> f = g.
Proof.
  intros Hf Hg Hh Hw Hcells. apply field_eq; [|done|done].
  rewrite (field_is_grid f (cell g) Hf Hcells).
  rewrite (field_is_grid g (cell g) Hg); [congruence|done].
Qed.

Lemma Set_twice (f : Field) (r c : Z) (b1 b2 : bool) :
  wf_field f -> in_bounds f r c ->
  (Set_ r c b1 ;;; Set_ r c b2) f = Set_ r c b2 f.
Proof.
  intros Hwf Hb.
  destruct (Set_written f r c b1 Hwf Hb) as (f1 & H1 & Hwf1 & Hh1 & Hw1 & Hc1).
  destruct (Set_written f r c b2 Hwf Hb) as (f2 & H2 & Hwf2 & Hh2 & Hw2 & Hc2).
  assert (Hb1 : in_bounds f1 r c) by (unfold in_bounds; now rewrite Hh1, Hw1).
  destruct (Set_written f1 r c b2 Hwf1 Hb1) as (f3 & H3 & Hwf3 & Hh3 & Hw3 & Hc3).
  rewrite (bind_Ok _ _ _ _ _ H1), H3, H2. do 2 f_equal.
  apply field_ext; [done | done | congruence | congruence |].
  intros i j [Hi Hj]. rewrite Hc3, Hc2, Hc1 by lia.
  now destruct ((i =? r) && (j =? c)).
Qed.

Lemma Set_commute (f : Field) (r c r' c' : Z) (b b' : bool) :
  wf_field f -> in_bounds f r c -> in_bounds f r' c' ->
  (r, c) <> (r', c') ->
  (Set_ r c b ;;; Set_ r' c' b') f = (Set_ r' c' b' ;;; Set_ r c b) f.
Proof.
  intros Hwf Hb Hb' Hne.
  destruct (Set_written f r c b Hwf Hb) as (f1 & H1 & Hwf1 & Hh1 & Hw1 & Hc1).
  destruct (Set_written f r' c' b' Hwf Hb') as (f2 & H2 & Hwf2 & Hh2 & Hw2 & Hc2).
  assert (Hb1 : in_bounds f1 r' c') by (unfold in_bounds; now rewrite Hh1, Hw1).
  assert (Hb2 : in_bounds f2 r c) by (unfold in_bounds; now rewrite Hh2, Hw2).
  destruct (Set_written f1 r' c' b' Hwf1 Hb1) as (f3 & H3 & Hwf3 & Hh3 & Hw3 & Hc3).
  destruct (Set_written f2 r c b Hwf2 Hb2) as (f4 & H4 & Hwf4 & Hh4 & Hw4 & Hc4).
  rewrite (bind_Ok _ _ _ _ _ H1), H3, (bind_Ok _ _ _ _ _ H2), H4. do 2 f_equal.
  apply field_ext; [done | done | congruence | congruence |].
  intros i j [Hi Hj]. rewrite Hc3, Hc4, Hc1, Hc2 by lia.
  destruct (Z.eqb_spec i r), (Z.eqb_spec j c), (Z.eqb_spec i r'), (Z.eqb_spec j c');
    cbn; try reflexivity.
  subst. now destruct Hne.
Qed.

Lemma Set_read_back (f : Field) (r c : Z) (v : bool) :
  wf_field f -> in_bounds f r c ->
  Alive r c f = Ok (v, f) -> Set_ r c v f = Ok (None, f).
Proof.
  intros Hwf Hb HA. rewrite Alive_in_bounds in HA by done.
  injection HA as <-.
  destruct (Set_written f r c (cell f r c) Hwf Hb) as (f1 & H1 & Hwf1 & Hh1 & Hw1 & Hc1).
  rewrite H1. do 2 f_equal.
  apply field_ext; [done | done | congruence | congruence |].
  intros i j [Hi Hj]. rewrite Hh1 in Hi. rewrite Hw1 in Hj. rewrite Hc1 by lia.
  destruct (Z.eqb_spec i r), (Z.eqb_spec j c); cbn; congruence.
Qed.

Lemma Set_frame (f : Field) (r c r' c' : Z) (b : bool) :
  wf_field f -> in_bounds f r c -> in_bounds f r' c' ->
  (r, c) <> (r', c') ->
  exists f' v, Set_ r c b f = Ok (None, f') /\
    h f' = h f /\ w f' = w f /\
    Alive r' c' f = Ok (v, f) /\ Alive r' c' f' = Ok (v, f').
Proof.
  intros Hwf Hb Hb' Hne.
  destruct (Set_written f r c b Hwf Hb) as (f1 & H1 & Hwf1 & Hh1 & Hw1 & Hc1).
  exists f1, (cell f r' c'). split; [done|]. split; [done|]. split; [done|].
  split; [now apply Alive_in_bounds|].
  rewrite Alive_in_bounds; [|done|unfold in_bounds; now rewrite Hh1, Hw1].
  rewrite Hc1 by (destruct Hb'; lia).
  destruct (Z.eqb_spec r' r), (Z.eqb_spec c' c); cbn; try reflexivity.
  subst. now destruct Hne.
Qed.

(** ** Every input file *)

(** Any sequence of bytes is a sequence of terminated lines followed by
    bytes without a terminator. *)
Lemma split_lines (buf : list byte) :
  exists lines tail,
    buf = concat lines ++ tail /\ Forall is_line lines /\ newline ∉ tail.
Proof.
  induction buf as [|b buf (lines & tail & -> & Hlines & Htail)].
  - exists [], []. split; [reflexivity|]. split; [constructor|apply not_elem_of_nil].
  - destruct (Byte.eqb b newline) eqn:E.
    + apply Byte.byte_dec_bl in E. subst b.
      exists ([newline] :: lines), tail. split; [reflexivity|]. split; [|done].
      constructor; [|done]. exists []. split; [reflexivity|apply not_elem_of_nil].
    + assert (Hb : b <> newline).
      { intros ->. now rewrite (Byte.byte_dec_lb (x:=newline) eq_refl) in E. }
      destruct lines as [|l lines].
      * exists [], (b :: tail). split; [reflexivity|]. split; [constructor|].
        apply not_elem_of_cons. split; [congruence|done].
      * apply Forall_cons in Hlines as [(body & -> & Hbody) Hlines].
        exists ((b :: body ++ [newline]) :: lines), tail.
        split; [reflexivity|]. split; [|done].
        constructor; [|done]. exists (b :: body). split; [reflexivity|].
        apply not_elem_of_cons. split; [congruence|done].
Qed.

Lemma read_rows_bad_line (colsize : Z) (lines : list (list byte))
    (init : list (list bool)) (tail : list byte) :
  Forall is_line lines -> Exists (fun l => len l <> colsize) lines ->
  read_rows colsize init (concat lines ++ tail) =
    Error "column size is not appropriate".
Proof.
  revert init. induction lines as [|l lines IH]; intros init Hlines Hbad.
  - inversion Hbad.
  - apply Forall_cons in Hlines as [Hl Hlines].
    cbn [concat]. rewrite <- app_assoc.
    rewrite (read_rows_line _ _ _ l (concat lines ++ tail))
      by now apply ReadBytes_line.
    destruct (Z.eqb_spec (len l) colsize) as [Heq|Hne]; cbn [negb].
    + apply IH; [done|]. apply Exists_cons in Hbad as [|]; [done|done].
    + reflexivity.
Qed.

(** What the loader does with a file, in terms of the lines of the file. *)
Lemma NewLifeFromFile_by_lines (fs : filesystem) (path : string)
    (lines : list (list byte)) (tail : list byte) :
  Forall is_line lines -> newline ∉ tail ->
  len (concat lines ++ tail) <= max_len ->
  fs path = Value (concat lines ++ tail) ->
  NewLifeFromFile fs path =
    match lines with
    | [] => Ok (Error "EOF")
    | first :: rest =>
        if forallb (fun l => len l =? len first) rest
        then Ok (Value (loaded (map bytesToBool lines) (len first)))
        else Ok (Error "column size is not appropriate")
    end.
Proof.
  intros Hlines Htail Hmax Hfs. destruct lines as [|first rest].
  - unfold NewLifeFromFile. rewrite Hfs. cbn [concat app].
    now rewrite ReadBytes_unterminated.
  - destruct (forallb (fun l => len l =? len first) rest) eqn:E.
    + apply (NewLifeFromFile_lines fs path first rest tail); try done.
      * apply Forall_forall. intros l Hl. rewrite forallb_forall in E.
        apply Z.eqb_eq, E. now apply list_elem_of_In.
      * unfold len in *. rewrite length_app in Hmax. lia.
    + unfold NewLifeFromFile. rewrite Hfs. cbn [concat]. rewrite <- app_assoc.
      apply Forall_cons in Hlines as [Hfirst Hrest].
      rewrite ReadBytes_line by done.
      rewrite read_rows_bad_line; [reflexivity|done|].
      apply Exists_exists.
      destruct (forallb_forall (fun l => len l =? len first) rest) as [_ Hall].
      destruct (existsb (fun l => negb (len l =? len first)) rest) eqn:Ex.
      * apply existsb_exists in Ex as (l & Hl & Hne).
        exists l. split; [now apply list_elem_of_In|].
        intros Heq. now rewrite Heq, Z.eqb_refl in Hne.
      * exfalso. rewrite Hall in E; [discriminate|].
        intros l Hl. destruct (len l =? len first) eqn:El; [done|].
        assert (existsb (fun l => negb (len l =? len first)) rest = true);
          [|congruence].
        apply existsb_exists. exists l. now rewrite El.
Qed.

Lemma loaded_wf (lines : list (list byte)) (first : list byte) (rest : list (list byte)) :
  lines = first :: rest -> Forall is_line lines ->
  Forall (fun l => len l = len first) rest ->
  len (concat lines) <= max_len ->
  wf_life (loaded (map bytesToBool lines) (len first)).
Proof.
  intros -> Hlines Hlens Hmax.
  pose proof (lines_length _ Hlines) as Hcount.
  pose proof (line_length (first :: rest) first (list_elem_of_here _ _)) as Hwidth.
  pose proof (is_line_nonempty _ (Forall_inv Hlines)) as Hfirst.
  assert (Hrows : len (map bytesToBool (first :: rest)) = len (first :: rest)).
  { unfold len. now rewrite length_map. }
  assert (Hpos : 1 <= len (first :: rest)).
  { unfold len. cbn [length]. lia. }
  split; unfold loaded; cbn [cur next].
  - apply init_wf; try lia.
    apply Forall_forall. intros row Hrow.
    apply list_elem_of_In, in_map_iff in Hrow as (line & <- & Hline).
    unfold len, bytesToBool. rewrite length_map.
    destruct Hline as [<-|Hline]; [reflexivity|].
    apply list_elem_of_In in Hline.
    exact (proj1 (Forall_forall _ _) Hlens line Hline).
  - apply blank_wf; lia.
Qed.

(** ** Printing *)

Lemma range_from_app {S A : Type} (body : Z -> A -> M S unit)
    (l1 l2 : list A) (i : Z) (s : S) :
  range_from i (l1 ++ l2) body s =
  bind (range_from i l1 body) (fun _ => range_from (i + len l1) l2 body) s.
Proof.
  revert i s. induction l1 as [|x l1 IH]; intros i s.
  - cbn. unfold bind, ret. now rewrite Z.add_0_r.
  - cbn [app range_from]. unfold bind.
    destruct (body i x s) as [[[] s1]|]; [|reflexivity].
    rewrite IH. unfold bind, len. cbn [length].
    destruct (range_from (i + 1) l1 body s1) as [[[] s2]|]; [|reflexivity].
    f_equal. lia.
Qed.

(** The loop that renders one row into the zeroed buffer. *)
Lemma fill_row (W : nat) (row : list bool) :
  (length row <= W)%nat ->
  exec (for_range row (fun j c =>
          let* buf := get in
          let* _ := lift (index buf j) in
          put (<[Z.to_nat j := if c : bool then glyph_o else space]> buf)))
       (replicate W x00) =
  Ok (map glyph row ++ replicate (W - length row) x00).
Proof.
  intros Hlen. unfold exec, for_range.
  destruct (range_from_inv
              (fun m (buf : list byte) =>
                 buf = map glyph (take m row) ++ replicate (W - m) x00)
              (fun j (c : bool) =>
                 let* buf := get in
                 let* _ := lift (index buf j) in
                 put (<[Z.to_nat j := if c then glyph_o else space]> buf))
              row 0 (replicate W x00))
    as (buf & Hrun & Hbuf).
  - cbn. now rewrite Nat.sub_0_r.
  - intros m c buf Hm ->. pose proof (lookup_lt_Some _ _ _ Hm) as Hlt.
    eexists. split.
    + unfold bind, get, lift, put.
      assert (Hidx : exists y, (map glyph (take m row) ++ replicate (W - m) x00)
                                 !! Z.to_nat (0 + Z.of_nat m) = Some y).
      { apply lookup_lt_is_Some_2.
        rewrite length_app, length_map, length_take, length_replicate. lia. }
      destruct Hidx as [y Hy].
      rewrite (index_lookup _ _ y) by (done || lia). reflexivity.
    + replace (Z.to_nat (0 + Z.of_nat m)) with m by lia.
      rewrite (take_S_r _ _ _ Hm), map_app. cbn [map].
      rewrite insert_app_r_alt
        by (rewrite length_map, length_take; lia).
      rewrite length_map, length_take.
      replace (m - m `min` length row)%nat with 0%nat by lia.
      destruct (W - m)%nat as [|n] eqn:En; [lia|].
      cbn [replicate]. cbn. rewrite <- app_assoc. cbn.
      replace (W - Datatypes.S m)%nat with n by lia.
      reflexivity.
  - rewrite Hrun, Hbuf. now rewrite firstn_all.
Qed.

Lemma fill_row_long (W : nat) (row : list bool) :
  (W < length row)%nat ->
  exec (for_range row (fun j c =>
          let* buf := get in
          let* _ := lift (index buf j) in
          put (<[Z.to_nat j := if c : bool then glyph_o else space]> buf)))
       (replicate W x00) =
  Panic IndexOutOfRange.
Proof.
  intros Hlen.
  pose proof (fill_row W (take W row)) as Hfill.
  rewrite length_take in Hfill. specialize (Hfill ltac:(lia)).
  unfold exec, for_range in *.
  rewrite <- (take_drop W row) at 1. rewrite range_from_app.
  unfold bind at 1.
  destruct (range_from 0 (take W row) _ (replicate W x00)) as [[[] buf]|];
    [|discriminate].
  injection Hfill as ->.
  destruct (drop W row) as [|c rest] eqn:Ed.
  { apply (f_equal length) in Ed. rewrite length_drop in Ed. cbn in Ed. lia. }
  cbn [range_from]. unfold bind at 1. unfold bind at 1. unfold get at 1.
  unfold bind at 1. unfold lift at 1.
  rewrite index_ge; [reflexivity|].
  unfold len. rewrite !length_app, length_map, !length_take, length_replicate.
  lia.
Qed.

(** The rows are printed one after the other; the first row that is longer
    than the width stops the program. *)
Lemma Print_rows (f : Field) (rows : list (list bool)) (i : Z) (out : stdout) :
  0 <= w f <= max_len ->
  range_from i rows (fun _ r =>
    let* bufr0 := lift (make x00 (w f)) in
    let* bufr := lift (exec (for_range r (fun j c =>
                   let* buf := get in
                   let* _ := lift (index buf j) in
                   put (<[Z.to_nat j := if c : bool then glyph_o else space]> buf)))
                 bufr0) in
    Println bufr) out =
  if forallb (fun r => len r <=? w f) rows
  then Ok (tt, out ++ concat (map (render_padded (w f)) rows))
  else Panic IndexOutOfRange.
Proof.
  intros Hw.
  set (body := fun (_ : Z) (r : list bool) =>
    let* bufr0 := lift (make x00 (w f)) in
    let* bufr := lift (exec (for_range r (fun j c =>
                   let* buf := get in
                   let* _ := lift (index buf j) in
                   put (<[Z.to_nat j := if c : bool then glyph_o else space]> buf)))
                 bufr0) in
    Println bufr).
  assert (Hbody : forall k r o,
            body k r o = if len r <=? w f
                         then Ok (tt, o ++ render_padded (w f) r)
                         else Panic IndexOutOfRange).
  { intros k r o. unfold body, bind, lift. rewrite make_ok by done.
    destruct (Z.leb_spec (len r) (w f)) as [Hfit|Hlong].
    - rewrite fill_row by (unfold len in Hfit; lia).
      unfold Println, write, render_padded. now rewrite <- !app_assoc.
    - now rewrite fill_row_long by (unfold len in Hlong; lia). }
  clearbody body. revert i out.
  induction rows as [|r rows IH]; intros i out.
  - cbn. unfold ret. now rewrite app_nil_r.
  - cbn [range_from forallb]. unfold bind. rewrite Hbody.
    destruct (len r <=? w f); cbn [andb]; [|reflexivity].
    rewrite IH. destruct (forallb _ rows); [|reflexivity].
    cbn [map concat]. now rewrite <- app_assoc.
Qed.

Lemma render_padded_full (width : Z) (row : list bool) :
  length row = Z.to_nat width -> render_padded width row = render_row row.
Proof.
  intros Hlen. unfold render_padded, render_row, glyph.
  now rewrite Hlen, Nat.sub_diag.
Qed.

Lemma Field_Print_wf (f : Field) (out : stdout) :
  wf_field f -> Field_Print f out = Ok (tt, out ++ render f).
Proof.
  intros (Hh & Hw & Hlen & Hrows).
  unfold Field_Print, for_range. rewrite Print_rows by lia.
  assert (Hfit : forallb (fun r => len r <=? w f) (cs f) = true).
  { apply forallb_forall. intros r Hr. apply list_elem_of_In in Hr.
    pose proof (proj1 (Forall_forall _ _) Hrows r Hr) as Hr'. cbn in Hr'.
    unfold len. lia. }
  rewrite Hfit. do 3 f_equal. unfold render. f_equal.
  apply map_ext_in. intros r Hr. apply list_elem_of_In in Hr.
  apply render_padded_full. exact (proj1 (Forall_forall _ _) Hrows r Hr).
Qed.

(** ** Printing and loading *)

Lemma render_row_is_line (row : list bool) : is_line (render_row row).
Proof.
  exists (map (fun c : bool => if c then glyph_o else space) row).
  split; [reflexivity|]. intros Hin.
  apply list_elem_of_In, in_map_iff in Hin as ([] & Hc & _); discriminate.
Qed.

Lemma render_row_decoded (row : list bool) :
  bytesToBool (render_row row) = row ++ [false].
Proof.
  unfold bytesToBool, render_row. rewrite map_app, map_map. cbn [map].
  f_equal. rewrite <- (map_id row) at 2. apply map_ext. now intros [].
Qed.

Lemma render_row_len (row : list bool) : len (render_row row) = len row + 1.
Proof.
  unfold len, render_row. rewrite length_app, length_map. cbn [length]. lia.
Qed.

Lemma render_lines (f : Field) : Forall is_line (map render_row (cs f)).
Proof.
  apply Forall_forall. intros l Hl.
  apply list_elem_of_In, in_map_iff in Hl as (row & <- & _).
  apply render_row_is_line.
Qed.

Lemma render_loads (fs : filesystem) (path : string) (f : Field) :
  wf_field f -> len (render f) <= max_len -> fs path = Value (render f) ->
  NewLifeFromFile fs path =
    Ok (Value (loaded (map (fun row => row ++ [false]) (cs f)) (w f + 1))).
Proof.
  intros Hwf Hmax Hfs. pose proof Hwf as (Hh & Hw & Hlen & Hrows).
  destruct (cs f) as [|row0 rows] eqn:Ecs; [cbn in Hlen; lia|].
  pose proof (render_lines f) as Hlines. unfold render in *.
  rewrite Ecs in *. cbn [map] in *.
  apply Forall_cons in Hrows as [Hrow0 Hrows].
  rewrite (NewLifeFromFile_lines fs path (render_row row0)
             (map render_row rows) []); try done.
  - rewrite render_row_len. cbn [map]. rewrite render_row_decoded, map_map.
    unfold len at 1. rewrite Hrow0, Z2Nat.id by lia.
    do 4 f_equal. apply map_ext. intros r. apply render_row_decoded.
  - apply Forall_forall. intros l Hl.
    apply list_elem_of_In, in_map_iff in Hl as (row & <- & Hrow).
    rewrite !render_row_len. unfold len. rewrite Hrow0.
    apply list_elem_of_In in Hrow.
    now rewrite (proj1 (Forall_forall _ _) Hrows row Hrow).
  - apply not_elem_of_nil.
  - now rewrite app_nil_r.
Qed.

(** ** The driver *)

Lemma Life_Print_wf (clear : list byte) (l : Life) (out : stdout) :
  wf_field (cur l) ->
  Life_Print clear l out =
    Ok (tt, out ++ clear ++
            (list_byte_of_string "---------- " ++ format_int (gen l) ++
             list_byte_of_string "th generation" ++ [newline]) ++
            render (cur l)).
Proof.
  intros Hwf. unfold Life_Print, bind, write.
  rewrite Field_Print_wf by done. now rewrite <- !app_assoc.
Qed.

Lemma tick_wf (clear : list byte) (l l1 : Life) (out : stdout) :
  wf_field (cur l) -> Next l = Ok (tt, l1) ->
  tick clear (l, out) =
    Ok (tt, (l1, out ++ clear ++
                 (list_byte_of_string "---------- " ++ format_int (gen l) ++
                  list_byte_of_string "th generation" ++ [newline]) ++
                 render (cur l))).
Proof.
  intros Hwf HN. unfold tick. cbn [fst snd].
  now rewrite Life_Print_wf, HN by done.
Qed.

(** Printing does not change the course of the generations, and the loop
    does not panic on well-formed buffers. *)
Lemma rounds_tick_wf (clear : list byte) (k : nat) (l : Life) (out : stdout) :
  wf_life l -> is_int (gen l) ->
  exists l' more,
    rounds k (tick clear) (l, out) = Ok (tt, (l', out ++ more)) /\
    rounds k Next l = Ok (tt, l').
Proof.
  revert l out. induction k as [|k IH]; intros l out Hwf Hgen.
  - exists l, []. now rewrite app_nil_r.
  - destruct (Next_wf l Hwf) as (l1 & HN & Hwf1 & Hg1 & _).
    pose proof (tick_wf clear l l1 out (proj1 Hwf) HN) as Htick.
    destruct (IH l1 (out ++ clear ++
                 (list_byte_of_string "---------- " ++ format_int (gen l) ++
                  list_byte_of_string "th generation" ++ [newline]) ++
                 render (cur l)) Hwf1) as (l' & more & Hrun & HNs).
    { rewrite Hg1. apply wrap_is_int. }
    exists l', ((clear ++
                 (list_byte_of_string "---------- " ++ format_int (gen l) ++
                  list_byte_of_string "th generation" ++ [newline]) ++
                 render (cur l)) ++ more).
    split.
    + rewrite (rounds_S k (tick clear) _ _ Htick), Hrun.
      now rewrite <- !app_assoc.
    + now rewrite (rounds_S k Next _ _ HN).
Qed.

Lemma rounds_tick_square (clear : list byte) (k : nat) (l : Life) (n : Z)
    (out : stdout) :
  wf_life l -> is_int (gen l) ->
  h (cur l) = n -> w (cur l) = n -> h (next l) = n -> w (next l) = n ->
  exists l',
    rounds k (tick clear) (l, out) =
      Ok (tt, (l', out ++ frames clear (cur l) (gen l) k)) /\
    cur l' = Nat.iter k step_field (cur l) /\
    gen l' = wrap (gen l + Z.of_nat k).
Proof.
  revert l out. induction k as [|k IH]; intros l out Hwf Hgen Hhc Hwc Hhn Hwn.
  - exists l. cbn [rounds frames Nat.iter]. rewrite app_nil_r.
    split; [reflexivity|]. split; [reflexivity|].
    rewrite Z.add_0_r. symmetry. now apply wrap_small.
  - pose proof Hwf as [Hwfc Hwfn]. pose proof Hwfc as (Hh & Hw & _).
    pose proof (Next_step_field l Hwf ltac:(congruence) ltac:(congruence)) as HN.
    pose proof (tick_wf clear l _ out Hwfc HN) as Htick.
    destruct (IH {| cur := step_field (cur l);
                    next := blank (w (cur l)) (h (cur l));
                    gen := int_add (gen l) 1 |}
                 (out ++ clear ++
                  (list_byte_of_string "---------- " ++ format_int (gen l) ++
                   list_byte_of_string "th generation" ++ [newline]) ++
                  render (cur l)))
      as (l' & Hrun & Hcur & Hg); cbn [cur next gen]; try done.
    + split; cbn [cur next]; [now apply step_field_wf | apply blank_wf; lia].
    + apply wrap_is_int.
    + exists l'. rewrite (rounds_S k _ _ _ Htick), Hrun.
      cbn [cur gen] in *. split; [|split].
      * cbn [frames]. do 3 f_equal. now rewrite <- !app_assoc.
      * now rewrite Nat.iter_succ_r.
      * rewrite Hg. unfold int_add. rewrite wrap_add_l. f_equal. lia.
Qed.

(** ** Further properties of [Field] *)



(** X2. An in-bounds [Set] on a well-formed field keeps the dimensions and
    changes no other cell: [Alive] at any other in-bounds coordinates
    returns what it returned before. *)
Theorem Set_changes_one_cell (f : Field) (r c r' c' : Z) (b : bool) :
  wf_field f -> in_bounds f r c -> in_bounds f r' c' ->
  (r, c) <> (r', c') ->
  exists f' v, Set_ r c b f = Ok (None, f') /\
    h f' = h f /\ w f' = w f /\
    Alive r' c' f = Ok (v, f) /\ Alive r' c' f' = Ok (v, f').
Proof. apply Set_frame. Qed.

Lemma Set_changes_one_cell_witness :
  exists f' v, Set_ 1 1 true grid3 = Ok (None, f') /\
    h f' = h grid3 /\ w f' = w grid3 /\
    Alive 2 2 grid3 = Ok (v, grid3) /\ Alive 2 2 f' = Ok (v, f').
Proof.
  apply (Set_changes_one_cell grid3 1 1 2 2 true).
  - exact grid3_wf.
  - unfold in_bounds, grid3; cbn. lia.
  - unfold in_bounds, grid3; cbn. lia.
  - discriminate.
Defined.

(** X3. Of two in-bounds writes to the same cell the later one wins: the
    field after both is the field after the second alone. *)
Theorem Set_overwrites (f : Field) (r c : Z) (b1 b2 : bool) :
  wf_field f -> in_bounds f r c ->
  (Set_ r c b1 ;;; Set_ r c b2) f = Set_ r c b2 f.
Proof. apply Set_twice. Qed.

Lemma Set_overwrites_witness :
  (Set_ 1 1 true ;;; Set_ 1 1 false) grid3 = Set_ 1 1 false grid3.
Proof.
  apply (Set_overwrites grid3 1 1 true false).
  - exact grid3_wf.
  - unfold in_bounds, grid3; cbn. lia.
Defined.

(** X4. In-bounds writes to two different cells of a well-formed field can
    be made in either order. *)
Theorem Set_writes_commute (f : Field) (r c r' c' : Z) (b b' : bool) :
  wf_field f -> in_bounds f r c -> in_bounds f r' c' ->
  (r, c) <> (r', c') ->
  (Set_ r c b ;;; Set_ r' c' b') f = (Set_ r' c' b' ;;; Set_ r c b) f.
Proof. apply Set_commute. Qed.

Lemma Set_writes_commute_witness :
  (Set_ 0 1 true ;;; Set_ 0 2 true) grid3 = (Set_ 0 2 true ;;; Set_ 0 1 true) grid3.
Proof.
  apply (Set_writes_commute grid3 0 1 0 2 true true).
  - exact grid3_wf.
  - unfold in_bounds, grid3; cbn. lia.
  - unfold in_bounds, grid3; cbn. lia.
  - discriminate.
Defined.

(** X5. Writing back the value that [Alive] has just read at in-bounds
    coordinates leaves a well-formed field exactly as it was. *)
Theorem Set_of_value_read (f : Field) (r c : Z) (v : bool) :
  wf_field f -> in_bounds f r c ->
  Alive r c f = Ok (v, f) -> Set_ r c v f = Ok (None, f).
Proof. apply Set_read_back. Qed.

Lemma Set_of_value_read_witness : Set_ 2 2 true grid3 = Ok (None, grid3).
Proof.
  apply (Set_of_value_read grid3 2 2 true).
  - exact grid3_wf.
  - unfold in_bounds, grid3; cbn. lia.
  - reflexivity.
Defined.

(** X6. On a field whose height or width is 0, such as the one that
    [NewField(0, w)] returns, [Alive] panics with an integer division by
    zero at any coordinates. *)
Theorem Alive_zero_dimension (f : Field) (r c : Z) :
  h f = 0 \/ w f = 0 -> Alive r c f = Panic DivideByZero.
Proof.
  intros Hz. unfold Alive, bind, get, lift, int_rem.
  destruct (Z.eqb_spec (h f) 0); [reflexivity|].
  destruct (Z.eqb_spec (w f) 0); [reflexivity|]. lia.
Qed.

Lemma Alive_zero_dimension_witness :
  Alive 0 0 (blank 0 5) = Panic DivideByZero.
Proof. apply (Alive_zero_dimension (blank 0 5) 0 0). left. reflexivity. Defined.

(** X7. Whatever the field, well formed or not, and whatever the
    coordinates: [Alive] and [NextGen] either panic or return the field
    they were called on. *)
Theorem reads_never_write (f : Field) (r c : Z) :
  ((exists p, Alive r c f = Panic p) \/ (exists b, Alive r c f = Ok (b, f))) /\
  ((exists p, NextGen r c f = Panic p) \/ (exists b, NextGen r c f = Ok (b, f))).
Proof.
  split.
  - destruct (Alive r c f) as [[b f']|p] eqn:E; [right|left; eauto].
    exists b. now rewrite (Alive_pure _ _ _ _ _ E).
  - destruct (NextGen r c f) as [[b f']|p] eqn:E; [right|left; eauto].
    exists b. now rewrite (NextGen_pure _ _ _ _ _ E).
Qed.

(** ** Further properties of [Life] *)

Lemma NewLife_wf (h0 w0 : Z) (init : list (list bool)) :
  1 <= h0 <= max_len -> 1 <= w0 <= max_len ->
  len init = h0 -> Forall (fun row => len row = w0) init ->
  NewLife h0 w0 init =
    Ok (Value {| cur := {| cs := init; w := w0; h := h0 |};
                 next := blank h0 w0; gen := 0 |}) /\
  wf_life {| cur := {| cs := init; w := w0; h := h0 |};
             next := blank h0 w0; gen := 0 |}.
Proof.
  intros Hh Hw Hlen Hrows.
  destruct init as [|row0 init']; [unfold len in Hlen; cbn in Hlen; lia|].
  pose proof (Forall_inv Hrows) as Hrow0. cbn in Hrow0.
  split.
  - apply (NewLife_ok h0 w0 _ row0); (done || lia).
  - split; cbn [cur next]; [now apply init_wf | now apply blank_wf].
Qed.

(** X8. Whenever [Next] returns, on any life at all, the counter has gone
    up by one (wrapping at the top of [int]), the new current field has
    the dimensions of the old next buffer, and the new next buffer is all
    dead with the height and the width of the current field exchanged. *)
Theorem Next_whenever_it_returns (l l' : Life) :
  Next l = Ok (tt, l') ->
  gen l' = int_add (gen l) 1 /\
  h (cur l') = h (next l) /\ w (cur l') = w (next l) /\
  next l' = blank (w (cur l')) (h (cur l')) /\
  all_dead (next l').
Proof.
  intros HN. apply Next_inv_any in HN as (Hg & Hh & Hw & _ & Hn).
  repeat split; try done. rewrite Hn. apply blank_dead.
Qed.

Lemma Next_whenever_it_returns_witness :
  let l := {| cur := {| cs := dead2x3; w := 3; h := 2 |};
              next := blank 2 3; gen := int_max |} in
  let l' := {| cur := blank 2 3; next := blank 3 2; gen := int_min |} in
  gen l' = int_add (gen l) 1 /\
  h (cur l') = h (next l) /\ w (cur l') = w (next l) /\
  next l' = blank (w (cur l')) (h (cur l')) /\
  all_dead (next l').
Proof.
  apply (Next_whenever_it_returns
           {| cur := {| cs := dead2x3; w := 3; h := 2 |};
              next := blank 2 3; gen := int_max |}
           {| cur := blank 2 3; next := blank 3 2; gen := int_min |}).
  vm_compute. reflexivity.
Defined.

(** X9. [Next] on two well-formed buffers of any dimensions, equal or
    not, does not panic.  The new current field is the old next buffer, in
    which every cell that lies inside both grids holds the new generation
    of that cell and every other cell holds what the buffer held before. *)
Theorem Next_on_any_buffers (l : Life) :
  wf_field (cur l) -> wf_field (next l) ->
  exists l', Next l = Ok (tt, l') /\
    wf_field (cur l') /\ wf_field (next l') /\
    forall i j, 0 <= i -> 0 <= j ->
      cell (cur l') i j =
        if in_boundsb (cur l) i j && in_boundsb (next l) i j
        then rule (live_neighbours (cur l) i j) (cell (cur l) i j)
        else cell (next l) i j.
Proof.
  intros Hc Hn.
  destruct (Next_effect l Hc Hn) as (f' & HN & Hwf' & Hh' & Hw' & Hcells).
  pose proof Hn as (Hhn & Hwn & _).
  eexists. split; [exact HN|]. cbn [cur next].
  split; [done|]. split; [apply blank_wf; lia | exact Hcells].
Qed.

Lemma Next_on_any_buffers_witness :
  let l := {| cur := {| cs := block4x5; w := 5; h := 4 |};
              next := blank 5 4; gen := 1 |} in
  exists l', Next l = Ok (tt, l') /\
    wf_field (cur l') /\ wf_field (next l') /\
    forall i j, 0 <= i -> 0 <= j ->
      cell (cur l') i j =
        if in_boundsb (cur l) i j && in_boundsb (next l) i j
        then rule (live_neighbours (cur l) i j) (cell (cur l) i j)
        else cell (next l) i j.
Proof.
  apply (Next_on_any_buffers
           {| cur := {| cs := block4x5; w := 5; h := 4 |};
              next := blank 5 4; gen := 1 |}); cbn [cur next].
  - apply init_wf; unfold max_len; try lia; try reflexivity.
    repeat constructor.
  - apply blank_wf; unfold max_len; lia.
Defined.

(** X10. On a rectangular grid of any dimensions, the first call of
    [Next] after [NewLife] leaves as current field the next generation of
    every cell of the pattern. *)
Theorem first_generation (h0 w0 : Z) (init : list (list bool)) :
  1 <= h0 <= max_len -> 1 <= w0 <= max_len ->
  len init = h0 -> Forall (fun row => len row = w0) init ->
  exists l0,
    NewLife h0 w0 init = Ok (Value l0) /\
    Next l0 = Ok (tt, {| cur := step_field (cur l0);
                         next := blank w0 h0; gen := 1 |}) /\
    h (step_field (cur l0)) = h0 /\ w (step_field (cur l0)) = w0 /\
    forall i j, 0 <= i < h0 -> 0 <= j < w0 ->
      cell (step_field (cur l0)) i j =
        rule (live_neighbours (cur l0) i j) (cell (cur l0) i j).
Proof.
  intros Hh Hw Hlen Hrows.
  destruct (NewLife_wf h0 w0 init Hh Hw Hlen Hrows) as [HL Hwf].
  eexists. split; [exact HL|]. split.
  - rewrite Next_step_field by done. reflexivity.
  - unfold step_field; cbn [cur cs h w]. split; [done|]. split; [done|].
    intros i j Hi Hj. now rewrite grid_cell.
Qed.

Lemma first_generation_witness :
  exists l0,
    NewLife 4 5 block4x5 = Ok (Value l0) /\
    Next l0 = Ok (tt, {| cur := step_field (cur l0);
                         next := blank 5 4; gen := 1 |}) /\
    h (step_field (cur l0)) = 4 /\ w (step_field (cur l0)) = 5 /\
    forall i j, 0 <= i < 4 -> 0 <= j < 5 ->
      cell (step_field (cur l0)) i j =
        rule (live_neighbours (cur l0) i j) (cell (cur l0) i j).
Proof.
  apply (first_generation 4 5 block4x5).
  - unfold max_len. lia.
  - unfold max_len. lia.
  - reflexivity.
  - repeat constructor.
Defined.

(** X11. After [NewLife] on a rectangular pattern, [Next] can be called
    any number of times without a panic, and both buffers stay well
    formed.  After an odd number of calls the current field has the
    declared dimensions and the next buffer the exchanged ones; after an
    even number, two or more, it is the other way round.  The counter is
    the number of calls, wrapped into [int]. *)
Theorem Next_any_number_of_times (h0 w0 : Z) (init : list (list bool)) (k : nat) :
  1 <= h0 <= max_len -> 1 <= w0 <= max_len ->
  len init = h0 -> Forall (fun row => len row = w0) init ->
  exists l0 l',
    NewLife h0 w0 init = Ok (Value l0) /\
    rounds (Datatypes.S k) Next l0 = Ok (tt, l') /\
    wf_field (cur l') /\ wf_field (next l') /\
    gen l' = wrap (Z.of_nat (Datatypes.S k)) /\
    (h (cur l'), w (cur l')) = (if Nat.even k then (h0, w0) else (w0, h0)) /\
    (h (next l'), w (next l')) = (if Nat.even k then (w0, h0) else (h0, w0)).
Proof.
  intros Hh Hw Hlen Hrows.
  destruct (NewLife_wf h0 w0 init Hh Hw Hlen Hrows) as [HL Hwf].
  destruct (rounds_Next_wf (Datatypes.S k) _ Hwf)
    as (l' & Hrun & [Hwfc Hwfn] & Hg & Hnext & Hcur).
  { cbn. unfold is_int, int_min, int_max. lia. }
  eexists. exists l'. split; [exact HL|]. split; [exact Hrun|].
  split; [done|]. split; [done|]. split; [exact Hg|].
  cbn [next cur blank h w gen] in *.
  specialize (Hcur ltac:(lia)).
  rewrite Nat.even_succ, <- Nat.negb_even in Hnext, Hcur.
  destruct (Nat.even k); cbn [negb] in *; done.
Qed.

Lemma Next_any_number_of_times_witness :
  exists l0 l',
    NewLife 2 3 dead2x3 = Ok (Value l0) /\
    rounds 4 Next l0 = Ok (tt, l') /\
    wf_field (cur l') /\ wf_field (next l') /\
    gen l' = wrap (Z.of_nat 4) /\
    (h (cur l'), w (cur l')) = (if Nat.even 3 then (2, 3) else (3, 2)) /\
    (h (next l'), w (next l')) = (if Nat.even 3 then (3, 2) else (2, 3)).
Proof.
  apply (Next_any_number_of_times 2 3 dead2x3 3).
  - unfold max_len. lia.
  - unfold max_len. lia.
  - reflexivity.
  - repeat constructor.
Defined.

(** X12. A grid without any alive cell, of any dimensions, has no alive
    cell after any number of calls of [Next]. *)
Theorem dead_stays_dead (h0 w0 : Z) (k : nat) :
  1 <= h0 <= max_len -> 1 <= w0 <= max_len ->
  exists l0 l',
    NewLife h0 w0 (cs (blank h0 w0)) = Ok (Value l0) /\
    rounds k Next l0 = Ok (tt, l') /\
    wf_field (cur l') /\ all_dead (cur l').
Proof.
  intros Hh Hw.
  pose proof (blank_wf h0 w0 Hh Hw) as Hbl. pose proof Hbl as (_ & _ & Hlen & Hrows).
  destruct (NewLife_wf h0 w0 (cs (blank h0 w0)) Hh Hw) as [HL Hwf].
  { unfold len. rewrite Hlen. cbn. lia. }
  { eapply Forall_impl; [exact Hrows|]. cbn. intros row Hrow. unfold len. lia. }
  destruct (rounds_Next_dead k _ Hwf) as (l' & Hrun & [Hwfc _] & Hdead & _).
  { cbn [cur]. exact (blank_dead h0 w0). }
  { cbn [next]. apply blank_dead. }
  eexists. exists l'. split; [exact HL|]. split; [exact Hrun|]. done.
Qed.

Lemma dead_stays_dead_witness :
  exists l0 l',
    NewLife 2 3 (cs (blank 2 3)) = Ok (Value l0) /\
    rounds 5 Next l0 = Ok (tt, l') /\
    wf_field (cur l') /\ all_dead (cur l').
Proof.
  apply (dead_stays_dead 2 3 5); unfold max_len; lia.
Defined.

(** X13. On a square grid, [k] calls of [Next] after [NewLife] leave as
    current field the [k]-th generation of the pattern: the rule applied
    [k] times to every cell of the torus. *)
Theorem square_generations (n : Z) (init : list (list bool)) (k : nat) :
  1 <= n <= max_len ->
  len init = n -> Forall (fun row => len row = n) init ->
  exists l0 l',
    NewLife n n init = Ok (Value l0) /\
    rounds k Next l0 = Ok (tt, l') /\
    cur l' = Nat.iter k step_field (cur l0) /\
    gen l' = wrap (Z.of_nat k).
Proof.
  intros Hn Hlen Hrows.
  destruct (NewLife_wf n n init Hn Hn Hlen Hrows) as [HL Hwf].
  destruct (rounds_Next_square k _ n Hwf) as (nxt & Hrun & _); try reflexivity.
  { cbn. unfold is_int, int_min, int_max. lia. }
  eexists. eexists. split; [exact HL|]. split; [exact Hrun|].
  split; reflexivity.
Qed.

Lemma square_generations_witness :
  exists l0 l',
    NewLife 3 3 (cs grid3) = Ok (Value l0) /\
    rounds 7 Next l0 = Ok (tt, l') /\
    cur l' = Nat.iter 7 step_field (cur l0) /\
    gen l' = wrap (Z.of_nat 7).
Proof.
  apply (square_generations 3 (cs grid3) 7).
  - unfold max_len. lia.
  - reflexivity.
  - repeat constructor.
Defined.

(** ** Further properties of construction and loading *)



(** X15. [NewLife] allocates its two buffers before it looks at the
    pattern: with a negative or too large declared height, or with a row
    to allocate of negative or too large width, it panics in [make]
    whatever the pattern is, also where the sizes mismatch. *)
Theorem NewLife_allocates_first (h0 w0 : Z) (init : list (list bool)) :
  ~ (0 <= h0 <= max_len /\ (h0 = 0 \/ 0 <= w0 <= max_len)) ->
  NewLife h0 w0 init = Panic MakesliceLen.
Proof.
  intros Hbad. unfold NewLife. now rewrite NewField_panics.
Qed.

Lemma NewLife_allocates_first_witness :
  NewLife (-1) 3 dead2x3 = Panic MakesliceLen.
Proof.
  apply (NewLife_allocates_first (-1) 3 dead2x3). unfold max_len. lia.
Defined.

(** X16. What the loader returns for a file is decided by the lines of
    the file.  With the file cut into its terminated lines and the bytes
    after the last terminator: no terminated line gives [io.EOF]; lines
    that all have the length of the first give the life whose rows are the
    decoded lines, terminators included, and whose width is that length;
    any other file gives ["column size is not appropriate"]. *)
Theorem NewLifeFromFile_by_the_lines (fs : filesystem) (path : string)
    (lines : list (list byte)) (tail : list byte) :
  Forall is_line lines -> newline ∉ tail ->
  len (concat lines ++ tail) <= max_len ->
  fs path = Value (concat lines ++ tail) ->
  NewLifeFromFile fs path =
    match lines with
    | [] => Ok (Error "EOF")
    | first :: rest =>
        if forallb (fun l => len l =? len first) rest
        then Ok (Value (loaded (map bytesToBool lines) (len first)))
        else Ok (Error "column size is not appropriate")
    end.
Proof. apply NewLifeFromFile_by_lines. Qed.

Lemma NewLifeFromFile_by_the_lines_witness :
  NewLifeFromFile (fun _ => Value (concat file_2x4 ++ [x6f])) "init.txt" =
    Ok (Value (loaded (map bytesToBool file_2x4) 4)).
Proof.
  apply (NewLifeFromFile_by_the_lines
           (fun _ => Value (concat file_2x4 ++ [x6f])) "init.txt" file_2x4 [x6f]).
  - exact file_2x4_lines.
  - intros Hin. apply list_elem_of_In in Hin. cbn in Hin.
    destruct Hin as [Hin|[]]; discriminate.
  - vm_compute. discriminate.
  - reflexivity.
Defined.

Lemma NewLifeFromFile_cases (fs : filesystem) (path : string) :
  (forall e, fs path = Error e -> NewLifeFromFile fs path = Ok (Error e)) /\
  (forall buf, fs path = Value buf -> len buf <= max_len ->
     NewLifeFromFile fs path = Ok (Error "EOF") \/
     NewLifeFromFile fs path = Ok (Error "column size is not appropriate") \/
     exists l, NewLifeFromFile fs path = Ok (Value l) /\
       wf_field (cur l) /\ wf_field (next l) /\
       h (next l) = h (cur l) /\ w (next l) = w (cur l) /\
       all_dead (next l) /\ gen l = 0).
Proof.
  split.
  - intros e Hfs. unfold NewLifeFromFile. now rewrite Hfs.
  - intros buf Hfs Hmax.
    destruct (split_lines buf) as (lines & tail & -> & Hlines & Htail).
    rewrite (NewLifeFromFile_by_lines fs path lines tail) by done.
    destruct lines as [|first rest]; [now left|].
    destruct (forallb (fun l => len l =? len first) rest) eqn:E;
      [|right; now left].
    right; right. eexists. split; [reflexivity|].
    destruct (loaded_wf (first :: rest) first rest eq_refl Hlines) as [Hc Hn].
    + apply Forall_forall. intros l Hl. rewrite forallb_forall in E.
      apply Z.eqb_eq, E. now apply list_elem_of_In.
    + unfold len in *. rewrite length_app in Hmax. lia.
    + split; [done|]. split; [done|]. unfold loaded; cbn [cur next h w gen].
      split; [reflexivity|]. split; [reflexivity|].
      split; [apply blank_dead | reflexivity].
Qed.

(** X17. The loader does not panic on any file, and the error of a failed
    read is passed on.  When it returns a life, both buffers are well
    formed and have the same dimensions, the next buffer is all dead and
    the counter is 0; the only errors it adds are [io.EOF] and
    ["column size is not appropriate"]. *)
Theorem NewLifeFromFile_never_panics (fs : filesystem) (path : string) :
  (forall e, fs path = Error e -> NewLifeFromFile fs path = Ok (Error e)) /\
  (forall buf, fs path = Value buf -> len buf <= max_len ->
     NewLifeFromFile fs path = Ok (Error "EOF") \/
     NewLifeFromFile fs path = Ok (Error "column size is not appropriate") \/
     exists l, NewLifeFromFile fs path = Ok (Value l) /\
       wf_field (cur l) /\ wf_field (next l) /\
       h (next l) = h (cur l) /\ w (next l) = w (cur l) /\
       all_dead (next l) /\ gen l = 0).
Proof. apply NewLifeFromFile_cases. Qed.

Lemma NewLifeFromFile_never_panics_witness :
  NewLifeFromFile (fun _ => Error "no such file") "init.txt" =
    Ok (Error "no such file") /\
  (NewLifeFromFile (fun _ => Value [x6f; x0a; x0a]) "init.txt" = Ok (Error "EOF") \/
   NewLifeFromFile (fun _ => Value [x6f; x0a; x0a]) "init.txt" =
     Ok (Error "column size is not appropriate") \/
   exists l, NewLifeFromFile (fun _ => Value [x6f; x0a; x0a]) "init.txt" =
               Ok (Value l) /\
     wf_field (cur l) /\ wf_field (next l) /\
     h (next l) = h (cur l) /\ w (next l) = w (cur l) /\
     all_dead (next l) /\ gen l = 0).
Proof.
  split.
  - apply (proj1 (NewLifeFromFile_never_panics
                    (fun _ => Error "no such file") "init.txt")).
    reflexivity.
  - apply (proj2 (NewLifeFromFile_never_panics
                    (fun _ => Value [x6f; x0a; x0a]) "init.txt") [x6f; x0a; x0a]).
    + reflexivity.
    + vm_compute. discriminate.
Defined.

(** ** Further properties of printing and of [main] *)

(** X18. [Field.Print] renders every row into a buffer of [f.w] bytes that
    [make] has zeroed: a row of at most [f.w] cells is printed as its
    glyphs (['o'] alive, [' '] dead) followed by zero bytes up to the
    width and a line terminator, and the first row that is longer than
    [f.w] makes the call panic with an index out of range.  [f.h] plays no
    part. *)
Theorem Field_Print_rows (f : Field) (out : list byte) :
  0 <= w f <= max_len ->
  Field_Print f out =
    if forallb (fun r => len r <=? w f) (cs f)
    then Ok (tt, out ++ concat (map (render_padded (w f)) (cs f)))
    else Panic IndexOutOfRange.
Proof. intros Hw. unfold Field_Print, for_range. now apply Print_rows. Qed.

Lemma Field_Print_rows_witness :
  Field_Print {| cs := ragged2x2; w := 2; h := 2 |} [] =
    Ok (tt, [x6f; x20; x0a; x6f; x00; x0a]).
Proof.
  apply (Field_Print_rows {| cs := ragged2x2; w := 2; h := 2 |} []).
  cbn. unfold max_len. lia.
Defined.

(** X19. What [Field.Print] writes for a well-formed field can be loaded
    again: the loader returns the same rows, each with one more dead cell
    at its end, the line terminator, so that the grid is one column
    wider than the one that was printed. *)
Theorem print_then_load (f : Field) :
  wf_field f -> len (render f) <= max_len ->
  Field_Print f [] = Ok (tt, render f) /\
  forall fs path, fs path = Value (render f) ->
    NewLifeFromFile fs path =
      Ok (Value (loaded (map (fun row => row ++ [false]) (cs f)) (w f + 1))).
Proof.
  intros Hwf Hmax. split.
  - now rewrite Field_Print_wf.
  - intros fs path Hfs. now apply render_loads.
Qed.

Lemma print_then_load_witness :
  Field_Print grid3 [] = Ok (tt, render grid3) /\
  forall fs path, fs path = Value (render grid3) ->
    NewLifeFromFile fs path =
      Ok (Value (loaded (map (fun row => row ++ [false]) (cs grid3)) (w grid3 + 1))).
Proof.
  apply (print_then_load grid3).
  - exact grid3_wf.
  - vm_compute. discriminate.
Defined.

Lemma main_unfold (fs : filesystem) (clear : list byte) (k : nat) (out : list byte) :
  main fs clear k out =
    match NewLifeFromFile fs "init.txt" with
    | Panic p => Panic p
    | Ok (Error e) =>
        Ok (Fatal ("NewLifeFromFile: " ++ e),
            out ++ list_byte_of_string "Lifegame" ++ [newline])
    | Ok (Value l) =>
        match rounds k (tick clear)
                (l, out ++ list_byte_of_string "Lifegame" ++ [newline]) with
        | Panic p => Panic p
        | Ok (_, (l', out')) => Ok (Looping l', out')
        end
    end.
Proof.
  unfold main, bind, Println, write, lift.
  destruct (NewLifeFromFile fs "init.txt") as [[l|e]|p]; reflexivity.
Qed.

(** X20. When [init.txt] cannot be read, has no terminated line or has a
    line whose length differs from the first, [main] prints its banner and
    nothing else, and leaves through [log.Fatalf] with the loader's error;
    no generation is computed, however long one waits. *)
Theorem main_fatal (fs : filesystem) (clear : list byte) (k : nat) (out : list byte) :
  (forall e, fs "init.txt"%string = Error e ->
     main fs clear k out =
       Ok (Fatal ("NewLifeFromFile: " ++ e),
           out ++ list_byte_of_string "Lifegame" ++ [newline])) /\
  (forall tail, newline ∉ tail -> fs "init.txt"%string = Value tail ->
     main fs clear k out =
       Ok (Fatal "NewLifeFromFile: EOF",
           out ++ list_byte_of_string "Lifegame" ++ [newline])) /\
  (forall first rest tail,
     Forall is_line (first :: rest) -> newline ∉ tail ->
     Exists (fun l => len l <> len first) rest ->
     fs "init.txt"%string = Value (concat (first :: rest) ++ tail) ->
     main fs clear k out =
       Ok (Fatal "NewLifeFromFile: column size is not appropriate",
           out ++ list_byte_of_string "Lifegame" ++ [newline])).
Proof.
  split; [|split].
  - intros e Hfs. rewrite main_unfold.
    unfold NewLifeFromFile. now rewrite Hfs.
  - intros tail Htail Hfs. rewrite main_unfold.
    unfold NewLifeFromFile. now rewrite Hfs, ReadBytes_unterminated.
  - intros first rest tail Hlines Htail Hbad Hfs. rewrite main_unfold.
    apply Forall_cons in Hlines as [Hfirst Hrest].
    unfold NewLifeFromFile. rewrite Hfs. cbn [concat]. rewrite <- app_assoc.
    rewrite ReadBytes_line by done.
    now rewrite read_rows_bad_line.
Qed.

Lemma main_fatal_witness :
  main (fun _ => Value (concat file_ragged)) [] 3 [] =
    Ok (Fatal "NewLifeFromFile: column size is not appropriate",
        [] ++ list_byte_of_string "Lifegame" ++ [newline]).
Proof.
  apply (proj2 (proj2 (main_fatal (fun _ => Value (concat file_ragged)) [] 3 []))
           [x6f; x20; x6f; x0a] [[x20; x6f; x0a]] []).
  - exact file_ragged_lines.
  - apply not_elem_of_nil.
  - constructor. vm_compute. discriminate.
  - reflexivity.
Defined.

(** X21. [main] does not panic, whatever [init.txt] holds, whatever the
    [clear] command writes and however many ticks go by: it has either
    left through [log.Fatalf], or it is in its loop with two well-formed
    buffers and a counter equal to the number of ticks (wrapped into
    [int]).  What it has printed starts with the banner. *)
Theorem main_never_panics (fs : filesystem) (clear : list byte) (k : nat)
    (out : list byte) :
  (forall buf, fs "init.txt"%string = Value buf -> len buf <= max_len) ->
  exists st more,
    main fs clear k out =
      Ok (st, out ++ list_byte_of_string "Lifegame" ++ [newline] ++ more) /\
    match st with
    | Fatal _ => more = []
    | Looping l =>
        wf_field (cur l) /\ wf_field (next l) /\ gen l = wrap (Z.of_nat k)
    end.
Proof.
  intros Hfs. rewrite main_unfold.
  destruct (fs "init.txt"%string) as [buf|e] eqn:Efs.
  - destruct (proj2 (NewLifeFromFile_cases fs "init.txt") buf Efs
                (Hfs buf eq_refl))
      as [HL|[HL|(l & HL & Hc & Hn & _ & _ & _ & Hg)]]; rewrite HL.
    + exists (Fatal "NewLifeFromFile: EOF"), []. split; reflexivity.
    + exists (Fatal "NewLifeFromFile: column size is not appropriate"), [].
      split; reflexivity.
    + destruct (rounds_tick_wf clear k l
                  (out ++ list_byte_of_string "Lifegame" ++ [newline]))
        as (l' & more & Hrun & HNs).
      { now split. }
      { rewrite Hg. unfold is_int, int_min, int_max. lia. }
      rewrite Hrun. exists (Looping l'), more.
      split; [now rewrite <- !app_assoc|].
      destruct (rounds_Next_wf k l) as (l2 & HNs' & [Hc' Hn'] & Hg' & _).
      { now split. }
      { rewrite Hg. unfold is_int, int_min, int_max. lia. }
      rewrite HNs in HNs'. injection HNs' as <-.
      rewrite Hg in Hg'. cbn in Hg'. done.
  - rewrite (proj1 (NewLifeFromFile_cases fs "init.txt") e Efs).
    exists (Fatal ("NewLifeFromFile: " ++ e)), []. split; reflexivity.
Qed.

Lemma main_never_panics_witness :
  exists st more,
    main (fun _ => Value (concat file_2x4)) [x21] 3 [] =
      Ok (st, [] ++ list_byte_of_string "Lifegame" ++ [newline] ++ more) /\
    match st with
    | Fatal _ => more = []
    | Looping l =>
        wf_field (cur l) /\ wf_field (next l) /\ gen l = wrap (Z.of_nat 3)
    end.
Proof.
  apply (main_never_panics (fun _ => Value (concat file_2x4)) [x21] 3 []).
  intros buf [= <-]. vm_compute. discriminate.
Defined.

(** X22. Printing does not change the course of the generations: after
    [k] ticks on a file of terminated lines of one length, [main] holds
    the life that [k] calls of [Next] make of the loaded one. *)
Theorem main_life_after_ticks (fs : filesystem) (clear : list byte) (k : nat)
    (out : list byte) (first : list byte) (rest : list (list byte))
    (tail : list byte) :
  Forall is_line (first :: rest) ->
  Forall (fun l => len l = len first) rest ->
  newline ∉ tail ->
  len (concat (first :: rest)) <= max_len ->
  fs "init.txt"%string = Value (concat (first :: rest) ++ tail) ->
  exists l' printed,
    rounds k Next (loaded (map bytesToBool (first :: rest)) (len first)) =
      Ok (tt, l') /\
    main fs clear k out = Ok (Looping l', printed).
Proof.
  intros Hlines Hlens Htail Hmax Hfs. rewrite main_unfold.
  rewrite (NewLifeFromFile_lines fs "init.txt" first rest tail) by done.
  destruct (rounds_tick_wf clear k
              (loaded (map bytesToBool (first :: rest)) (len first))
              (out ++ list_byte_of_string "Lifegame" ++ [newline]))
    as (l' & more & Hrun & HNs).
  - now apply (loaded_wf (first :: rest) first rest).
  - cbn. unfold is_int, int_min, int_max. lia.
  - rewrite Hrun. eauto.
Qed.

Lemma main_life_after_ticks_witness :
  exists l' printed,
    rounds 2 Next (loaded (map bytesToBool file_2x4) 4) = Ok (tt, l') /\
    main (fun _ => Value (concat file_2x4 ++ [])) [] 2 [] =
      Ok (Looping l', printed).
Proof.
  apply (main_life_after_ticks (fun _ => Value (concat file_2x4 ++ [])) [] 2 []
           [x6f; x20; x6f; x0a] [[x20; x6f; x6f; x0a]] []).
  - exact file_2x4_lines.
  - repeat constructor.
  - apply not_elem_of_nil.
  - vm_compute. discriminate.
  - reflexivity.
Defined.

(** X23. On a square file, [n] terminated lines of [n] bytes each, [main]
    prints after its banner one frame per tick: the output of [clear], the
    header with the number of the generation, and the rows of that
    generation of the loaded pattern, each generation being the rule
    applied to every cell of the one before. *)
Theorem main_square_output (fs : filesystem) (clear : list byte) (k : nat)
    (out : list byte) (first : list byte) (rest : list (list byte))
    (tail : list byte) :
  Forall is_line (first :: rest) ->
  Forall (fun l => len l = len first) rest ->
  len (first :: rest) = len first ->
  newline ∉ tail ->
  len (concat (first :: rest)) <= max_len ->
  fs "init.txt"%string = Value (concat (first :: rest) ++ tail) ->
  let f0 := cur (loaded (map bytesToBool (first :: rest)) (len first)) in
  exists l',
    main fs clear k out =
      Ok (Looping l',
          out ++ list_byte_of_string "Lifegame" ++ [newline] ++
          frames clear f0 0 k) /\
    cur l' = Nat.iter k step_field f0 /\
    gen l' = wrap (Z.of_nat k).
Proof.
  intros Hlines Hlens Hsq Htail Hmax Hfs f0. rewrite main_unfold.
  rewrite (NewLifeFromFile_lines fs "init.txt" first rest tail) by done.
  assert (Hrows : len (map bytesToBool (first :: rest)) = len first).
  { unfold len in *. now rewrite length_map. }
  destruct (rounds_tick_square clear k
              (loaded (map bytesToBool (first :: rest)) (len first))
              (len first)
              (out ++ list_byte_of_string "Lifegame" ++ [newline]))
    as (l' & Hrun & Hcur & Hg);
    [ now apply (loaded_wf (first :: rest) first rest)
    | cbn; unfold is_int, int_min, int_max; lia
    | exact Hrows | reflexivity | exact Hrows | reflexivity | ].
  rewrite Hrun. exists l'. split; [|split; [exact Hcur | exact Hg]].
  unfold f0. cbn [loaded gen]. now rewrite <- !app_assoc.
Qed.

Lemma main_square_output_witness :
  let f0 := cur (loaded (map bytesToBool [[x6f; x0a]; [x20; x0a]]) 2) in
  exists l',
    main (fun _ => Value (concat [[x6f; x0a]; [x20; x0a]] ++ [])) [x21] 3 [] =
      Ok (Looping l',
          [] ++ list_byte_of_string "Lifegame" ++ [newline] ++
          frames [x21] f0 0 3) /\
    cur l' = Nat.iter 3 step_field f0 /\
    gen l' = wrap (Z.of_nat 3).
Proof.
  apply (main_square_output (fun _ => Value (concat [[x6f; x0a]; [x20; x0a]] ++ []))
           [x21] 3 [] [x6f; x0a] [[x20; x0a]] []).
  - repeat constructor.
    + now apply (terminated_line [x6f]).
    + now apply (terminated_line [x20]).
  - repeat constructor.
  - reflexivity.
  - apply not_elem_of_nil.
  - vm_compute. discriminate.
  - reflexivity.
Defined.

(** ** The third revision *)

Lemma rev3_Alive_neighbour (f : Field) (out : list byte) (r c i j : Z) :
  wf_field f -> in_bounds f r c -> -1 <= i <= 1 -> -1 <= j <= 1 ->
  Rev3.on_field (Alive (int_add r i) (int_add c j)) (f, out) =
    Ok (torus_cell f (r + i) (c + j), (f, out)).
Proof.
  intros Hwf Hb Hi Hj. unfold Rev3.on_field. cbn [fst snd].
  now rewrite Alive_neighbour.
Qed.

Lemma rev3_Alive_self (f : Field) (out : list byte) (r c : Z) :
  wf_field f -> in_bounds f r c ->
  Rev3.on_field (Alive r c) (f, out) = Ok (cell f r c, (f, out)).
Proof.
  intros Hwf Hb. unfold Rev3.on_field. cbn [fst snd].
  now rewrite Alive_in_bounds.
Qed.

Lemma rev3_NextGen_eq (f : Field) (out : list byte) (r c : Z) :
  wf_field f -> in_bounds f r c ->
  Rev3.NextGen r c (f, out) =
    Ok (diagonal_step_cell f r c, (f, out ++ NextGen_trace f r c)).
Proof.
  intros Hwf Hb.
  unfold Rev3.NextGen, for_int.
  change (Z.to_nat (1 + 1 - -1)) with 3%nat. cbn [for_from].
  change (-1 + 1) with 0. change (0 + 1) with 1.
  cbn [Z.eqb negb andb].
  unfold NextGen_trace, diagonal_step_cell, diagonal_neighbours, diagonals.
  cbn [List.filter fst snd].
  remember (torus_cell f (r + -1) (c + -1)) as b1 eqn:E1.
  remember (torus_cell f (r + -1) (c + 1)) as b2 eqn:E2.
  remember (torus_cell f (r + 1) (c + -1)) as b3 eqn:E3.
  remember (torus_cell f (r + 1) (c + 1)) as b4 eqn:E4.
  remember (cell f r c) as b5 eqn:E5.
  unfold bind, ret, Rev3.print.
  destruct b1, b2, b3, b4, b5;
    repeat first
      [ rewrite rev3_Alive_neighbour by (done || lia)
      | rewrite rev3_Alive_self by done
      | rewrite <- E1 | rewrite <- E2 | rewrite <- E3 | rewrite <- E4
      | rewrite <- E5
      | progress cbv beta iota
      | progress cbn [fst snd]
      | match goal with
        | |- context [int_add ?a 1] =>
            let v := eval vm_compute in (int_add a 1) in
            change (int_add a 1) with v
        end
      | progress cbn [Z.eqb Pos.eqb] ];
    unfold rule, len; cbn [length];
    repeat match goal with
           | |- context [Z.to_nat (Z.of_nat ?n)] =>
               let v := eval vm_compute in (Z.to_nat (Z.of_nat n)) in
               change (Z.to_nat (Z.of_nat n)) with v
           | |- context [Z.of_nat ?n] =>
               let v := eval vm_compute in (Z.of_nat n) in
               change (Z.of_nat n) with v
           end;
    cbn [Z.eqb Pos.eqb orb andb replicate concat];
    rewrite <- ?app_assoc, ?app_nil_r; reflexivity.
Qed.

Lemma rev3_inv_cell (l0 l : Life) (out : list byte) (k m : Z) :
  Next_inv_by diagonal_step_cell l0 k m l -> wf_field (cur l0) ->
  0 <= k < h (cur l0) -> 0 <= m < w (cur l0) ->
  exists l' more,
    (let* b := Rev3.on_cur (Rev3.NextGen k m) in
     let* _ := Rev3.on_next (Set_ k m b) in
     ret tt) (l, out) = Ok (tt, (l', out ++ more)) /\
    Next_inv_by diagonal_step_cell l0 k (m + 1) l'.
Proof.
  intros (Hcur & Hgen & Hwf & Hh & Hw & Hcells) Hwf0 Hk Hm.
  unfold bind, Rev3.on_cur, Rev3.on_next, ret. cbn [fst snd].
  rewrite Hcur, rev3_NextGen_eq by done. cbn [cur next gen fst snd].
  destruct (Set_effect (next l) k m (diagonal_step_cell (cur l0) k m) Hwf)
    as (e & f' & HSet & Hwf' & Hh' & Hw' & Hcells').
  rewrite HSet.
  eexists. exists (NextGen_trace (cur l0) k m). split; [reflexivity|].
  unfold Next_inv_by; cbn [cur next gen].
  split; [done|]. split; [done|]. split; [done|].
  split; [congruence|]. split; [congruence|].
  intros i j Hi Hj. rewrite Hcells', Hcells by done.
  unfold in_boundsb, visited. rewrite Hh, Hw.
  destruct ((0 <=? k) && (k <? h (next l0)) && (0 <=? m) && (m <? w (next l0))
            && (i =? k) && (j =? m)) eqn:E1.
  - assert (i = k /\ j = m) as [-> ->] by lia.
    destruct (((k <? k) || (k =? k) && (m <? m + 1)) &&
              ((0 <=? k) && (k <? h (cur l0)) && (0 <=? m) && (m <? w (cur l0))) &&
              ((0 <=? k) && (k <? h (next l0)) && (0 <=? m) && (m <? w (next l0))))
      eqn:E2; [reflexivity | lia].
  - destruct (((i <? k) || (i =? k) && (j <? m)) &&
              ((0 <=? i) && (i <? h (cur l0)) && (0 <=? j) && (j <? w (cur l0))) &&
              ((0 <=? i) && (i <? h (next l0)) && (0 <=? j) && (j <? w (next l0))))
      eqn:E2;
    destruct (((i <? k) || (i =? k) && (j <? m + 1)) &&
              ((0 <=? i) && (i <? h (cur l0)) && (0 <=? j) && (j <? w (cur l0))) &&
              ((0 <=? i) && (i <? h (next l0)) && (0 <=? j) && (j <? w (next l0))))
      eqn:E3; try reflexivity; lia.
Qed.

Lemma rev3_inv_row (l0 l : Life) (out : list byte) (k : Z) (row : list bool) :
  Next_inv_by diagonal_step_cell l0 k 0 l -> wf_field (cur l0) ->
  0 <= k < h (cur l0) -> length row = Z.to_nat (w (cur l0)) ->
  exists l' more,
    for_range row (fun j _ =>
      let* b := Rev3.on_cur (Rev3.NextGen k j) in
      let* _ := Rev3.on_next (Set_ k j b) in
      ret tt) (l, out) = Ok (tt, (l', out ++ more)) /\
    Next_inv_by diagonal_step_cell l0 (k + 1) 0 l'.
Proof.
  intros Hinv Hwf0 Hk Hlen. unfold for_range.
  destruct (range_from_inv
              (fun m (s : Life * list byte) =>
                 Next_inv_by diagonal_step_cell l0 k (Z.of_nat m) s.1 /\
                 exists more, s.2 = out ++ more)
              (fun j (_ : bool) =>
                 let* b := Rev3.on_cur (Rev3.NextGen k j) in
                 let* _ := Rev3.on_next (Set_ k j b) in
                 ret tt) row 0 (l, out))
    as ([l' out'] & Hrun & Hend & more & Hout).
  - split; [exact Hinv|]. exists []. cbn. now rewrite app_nil_r.
  - intros m x [l1 o1] Hm [Hs1 [more1 Ho1]]. cbn [fst snd] in *.
    apply lookup_lt_Some in Hm.
    destruct (rev3_inv_cell l0 l1 o1 k (Z.of_nat m) Hs1 Hwf0 Hk)
      as (l2 & more2 & Hb & Hs2); [lia|].
    exists (l2, o1 ++ more2). split; [exact Hb|]. cbn [fst snd]. split.
    + now replace (Z.of_nat (Datatypes.S m)) with (Z.of_nat m + 1) by lia.
    + exists (more1 ++ more2). rewrite Ho1. now rewrite <- app_assoc.
  - cbn [fst snd] in *. subst out'. exists l', more. split; [exact Hrun|].
    destruct Hend as (Hcur & Hgen & Hwf & Hh & Hw & Hcells).
    pose proof Hwf0 as (_ & Hw0 & _).
    split; [done|]. split; [done|]. split; [done|].
    split; [done|]. split; [done|].
    intros i j Hi Hj. rewrite Hcells by done.
    rewrite Hlen, Z2Nat.id by lia. unfold visited, in_boundsb.
    destruct (((i <? k) || (i =? k) && (j <? w (cur l0))) &&
              ((0 <=? i) && (i <? h (cur l0)) && (0 <=? j) && (j <? w (cur l0))) &&
              ((0 <=? i) && (i <? h (next l0)) && (0 <=? j) && (j <? w (next l0))))
      eqn:E1;
    destruct (((i <? k + 1) || (i =? k + 1) && (j <? 0)) &&
              ((0 <=? i) && (i <? h (cur l0)) && (0 <=? j) && (j <? w (cur l0))) &&
              ((0 <=? i) && (i <? h (next l0)) && (0 <=? j) && (j <? w (next l0))))
      eqn:E2; try reflexivity; lia.
Qed.

Lemma rev3_inv_init (l : Life) :
  wf_field (next l) -> Next_inv_by diagonal_step_cell l 0 0 l.
Proof.
  intros Hwf. split; [done|]. split; [done|]. split; [done|].
  split; [done|]. split; [done|].
  intros i j Hi Hj. unfold visited.
  destruct (Z.ltb_spec i 0); [lia|].
  destruct (Z.ltb_spec j 0); [lia|].
  now rewrite andb_false_r.
Qed.

(** [Next] of the third revision on two well-formed buffers. *)
Lemma rev3_Next_effect (l : Life) (out : list byte) :
  wf_field (cur l) -> wf_field (next l) ->
  exists f' more,
    Rev3.Next (l, out) =
      Ok (tt, ({| cur := f'; next := cur l; gen := int_add (gen l) 1 |},
               out ++ more)) /\
    wf_field f' /\ h f' = h (next l) /\ w f' = w (next l) /\
    forall i j, 0 <= i -> 0 <= j ->
      cell f' i j =
        if in_boundsb (cur l) i j && in_boundsb (next l) i j
        then diagonal_step_cell (cur l) i j
        else cell (next l) i j.
Proof.
  intros Hwfc Hwfn.
  destruct (range_from_inv
              (fun k (s : Life * list byte) =>
                 Next_inv_by diagonal_step_cell l (Z.of_nat k) 0 s.1 /\
                 exists more, s.2 = out ++ more)
              (fun i (r : list bool) =>
                 for_range r (fun j _ =>
                   let* b := Rev3.on_cur (Rev3.NextGen i j) in
                   let* _ := Rev3.on_next (Set_ i j b) in
                   ret tt))
              (cs (cur l)) 0 (l, out))
    as ([l' out'] & Hrun & Hend & more & Hout).
  - split; [now apply rev3_inv_init|]. exists []. cbn. now rewrite app_nil_r.
  - intros k row [l1 o1] Hk [Hs1 [more1 Ho1]]. cbn [fst snd] in *.
    pose proof Hwfc as (Hh & Hw & Hlen & Hrows).
    pose proof (lookup_lt_Some _ _ _ Hk) as Hlt.
    pose proof (Forall_lookup_1 _ _ _ _ Hrows Hk) as Hrow.
    destruct (rev3_inv_row l l1 o1 (Z.of_nat k) row Hs1 Hwfc)
      as (l2 & more2 & Hb & Hs2); [lia | exact Hrow |].
    exists (l2, o1 ++ more2). split; [exact Hb|]. cbn [fst snd]. split.
    + now replace (Z.of_nat (Datatypes.S k)) with (Z.of_nat k + 1) by lia.
    + exists (more1 ++ more2). rewrite Ho1. now rewrite <- app_assoc.
  - cbn [fst snd] in *. subst out'.
    destruct Hend as (Hcur & Hgen & Hwf & Hh & Hw & Hcells).
    pose proof Hwfc as (Hhc & Hwc & Hlen & _).
    exists (next l'), more. split; [|split; [done|split; [done|split; [done|]]]].
    + unfold Rev3.Next. rewrite (bind_Ok get _ (l, out) (l, out) (l, out) eq_refl).
      cbn [fst]. rewrite (bind_Ok _ _ _ _ _ Hrun).
      unfold bind, get, put. cbn [cur next gen fst snd].
      now rewrite Hgen, Hcur.
    + intros i j Hi Hj. rewrite Hcells by done.
      rewrite Hlen, Z2Nat.id by lia. unfold visited, in_boundsb.
      destruct (((i <? h (cur l)) || (i =? h (cur l)) && (j <? 0)) &&
                ((0 <=? i) && (i <? h (cur l)) && (0 <=? j) && (j <? w (cur l))) &&
                ((0 <=? i) && (i <? h (next l)) && (0 <=? j) && (j <? w (next l))))
        eqn:E1;
      destruct ((0 <=? i) && (i <? h (cur l)) && (0 <=? j) && (j <? w (cur l)) &&
                ((0 <=? i) && (i <? h (next l)) && (0 <=? j) && (j <? w (next l))))
        eqn:E2; try reflexivity; lia.
Qed.

(** ** Properties of the earlier revisions *)

(** X24. In the third revision [NextGen] counts a neighbour only when both
    of its offsets are non-zero: on a well-formed field and an in-bounds
    cell it returns true exactly when the number of alive cells among the
    four diagonal neighbours on the torus is 3, or is 2 and the cell is
    alive.  It leaves the field alone and prints one line with the
    coordinates of the cell for every neighbour counted, and one more,
    ending in [true], when the result is true. *)
Theorem rev3_NextGen_counts_diagonals (f : Field) (out : list byte) (r c : Z) :
  wf_field f -> in_bounds f r c ->
  exists b : bool,
    Rev3.NextGen r c (f, out) =
      Ok (b, (f, out ++
                 concat (replicate (Z.to_nat (diagonal_neighbours f r c))
                                   (Rev3.line_rc r c)) ++
                 (if b then Rev3.line_rc_true r c else []))) /\
    (b = true <->
     diagonal_neighbours f r c = 3 \/
     (diagonal_neighbours f r c = 2 /\ cell f r c = true)).
Proof.
  intros Hwf Hb. exists (diagonal_step_cell f r c).
  split; [now apply rev3_NextGen_eq|].
  unfold diagonal_step_cell, rule.
  rewrite orb_true_iff, andb_true_iff, !Z.eqb_eq. tauto.
Qed.

Lemma rev3_NextGen_counts_diagonals_witness :
  exists b : bool,
    Rev3.NextGen 1 1 (grid3, []) =
      Ok (b, (grid3, [] ++
                 concat (replicate (Z.to_nat (diagonal_neighbours grid3 1 1))
                                   (Rev3.line_rc 1 1)) ++
                 (if b then Rev3.line_rc_true 1 1 else []))) /\
    (b = true <->
     diagonal_neighbours grid3 1 1 = 3 \/
     (diagonal_neighbours grid3 1 1 = 2 /\ cell grid3 1 1 = true)).
Proof.
  apply (rev3_NextGen_counts_diagonals grid3 [] 1 1).
  - exact grid3_wf.
  - unfold in_bounds, grid3; cbn. lia.
Defined.

(** X25. In the third revision [Next] exchanges the two buffers instead
    of allocating: on well-formed buffers it does not panic, the new next
    buffer is the old current field as it was, the new current field has
    the dimensions of the old next buffer, and the counter goes up by one.
    The cells inside both grids hold what the diagonal rule makes of
    them, the others what the buffer held. *)
Theorem rev3_Next_exchanges_buffers (l : Life) (out : list byte) :
  wf_field (cur l) -> wf_field (next l) ->
  exists l' more,
    Rev3.Next (l, out) = Ok (tt, (l', out ++ more)) /\
    next l' = cur l /\ gen l' = int_add (gen l) 1 /\
    wf_field (cur l') /\
    h (cur l') = h (next l) /\ w (cur l') = w (next l) /\
    forall i j, 0 <= i -> 0 <= j ->
      cell (cur l') i j =
        if in_boundsb (cur l) i j && in_boundsb (next l) i j
        then rule (diagonal_neighbours (cur l) i j) (cell (cur l) i j)
        else cell (next l) i j.
Proof.
  intros Hc Hn.
  destruct (rev3_Next_effect l out Hc Hn)
    as (f' & more & HN & Hwf' & Hh' & Hw' & Hcells).
  eexists. exists more. split; [exact HN|]. cbn [cur next gen].
  split; [reflexivity|]. split; [reflexivity|]. split; [done|].
  split; [done|]. split; [done|]. exact Hcells.
Qed.

Lemma rev3_Next_exchanges_buffers_witness :
  let l := {| cur := {| cs := block4x5; w := 5; h := 4 |};
              next := blank 4 5; gen := 0 |} in
  exists l' more,
    Rev3.Next (l, []) = Ok (tt, (l', [] ++ more)) /\
    next l' = cur l /\ gen l' = int_add (gen l) 1 /\
    wf_field (cur l') /\
    h (cur l') = h (next l) /\ w (cur l') = w (next l) /\
    forall i j, 0 <= i -> 0 <= j ->
      cell (cur l') i j =
        if in_boundsb (cur l) i j && in_boundsb (next l) i j
        then rule (diagonal_neighbours (cur l) i j) (cell (cur l) i j)
        else cell (next l) i j.
Proof.
  apply (rev3_Next_exchanges_buffers
           {| cur := {| cs := block4x5; w := 5; h := 4 |};
              next := blank 4 5; gen := 0 |} []); cbn [cur next].
  - apply init_wf; unfold max_len; try lia; try reflexivity.
    repeat constructor.
  - apply blank_wf; unfold max_len; lia.
Defined.

Lemma rev3_rounds_wf (k : nat) (l : Life) (out : list byte) :
  wf_life l ->
  exists l' more,
    rounds k Rev3.Next (l, out) = Ok (tt, (l', out ++ more)) /\
    wf_life l' /\
    ((h (cur l'), w (cur l')), (h (next l'), w (next l'))) =
      (if Nat.even k
       then ((h (cur l), w (cur l)), (h (next l), w (next l)))
       else ((h (next l), w (next l)), (h (cur l), w (cur l)))).
Proof.
  revert l out. induction k as [|k IH]; intros l out [Hc Hn].
  - exists l, []. rewrite app_nil_r. split; [reflexivity|]. now split.
  - destruct (rev3_Next_effect l out Hc Hn)
      as (f' & more & HN & Hwf' & Hh' & Hw' & _).
    destruct (IH {| cur := f'; next := cur l; gen := int_add (gen l) 1 |}
                 (out ++ more))
      as (l' & more' & Hrun & Hwf & Hdims); [now split|].
    exists l', (more ++ more').
    rewrite (rounds_S k _ _ _ HN), Hrun. rewrite <- app_assoc.
    split; [reflexivity|]. split; [done|].
    cbn [cur next] in Hdims. rewrite Hh', Hw' in Hdims.
    rewrite Nat.even_succ, <- Nat.negb_even.
    destruct (Nat.even k); cbn [negb]; exact Hdims.
Qed.

(** X26. In the third revision the two buffers keep the declared
    dimensions for ever: after [NewLife] on a rectangular pattern and any
    number of calls of [Next], both are well formed and [h] by [w], and no
    call panics. *)
Theorem rev3_dimensions_kept (h0 w0 : Z) (init : list (list bool)) (k : nat)
    (out : list byte) :
  1 <= h0 <= max_len -> 1 <= w0 <= max_len ->
  len init = h0 -> Forall (fun row => len row = w0) init ->
  exists l0 l' more,
    Rev3.NewLife h0 w0 init = Ok l0 /\
    rounds k Rev3.Next (l0, out) = Ok (tt, (l', out ++ more)) /\
    wf_field (cur l') /\ wf_field (next l') /\
    (h (cur l'), w (cur l')) = (h0, w0) /\
    (h (next l'), w (next l')) = (h0, w0).
Proof.
  intros Hh Hw Hlen Hrows.
  destruct (rev3_rounds_wf k {| cur := {| cs := init; w := w0; h := h0 |};
                                next := blank h0 w0; gen := 0 |} out)
    as (l' & more & Hrun & [Hc Hn] & Hdims).
  { split; cbn [cur next]; [now apply init_wf | now apply blank_wf]. }
  eexists. exists l', more. split; [|split; [exact Hrun|]].
  - unfold Rev3.NewLife, Rev2.NewLife. rewrite NewField_ok by lia. reflexivity.
  - split; [done|]. split; [done|].
    cbn [cur next blank h w] in Hdims.
    destruct (Nat.even k); injection Hdims as -> -> -> ->; done.
Qed.

Lemma rev3_dimensions_kept_witness :
  exists l0 l' more,
    Rev3.NewLife 2 3 dead2x3 = Ok l0 /\
    rounds 3 Rev3.Next (l0, []) = Ok (tt, (l', [] ++ more)) /\
    wf_field (cur l') /\ wf_field (next l') /\
    (h (cur l'), w (cur l')) = (2, 3) /\
    (h (next l'), w (next l')) = (2, 3).
Proof.
  apply (rev3_dimensions_kept 2 3 dead2x3 3 []).
  - unfold max_len. lia.
  - unfold max_len. lia.
  - reflexivity.
  - repeat constructor.
Defined.

(** The program of the third revision, which has no input: under its
    rule the 2x2 block of [main], a still life of the game, is gone after
    the first of the ten generations.  [main] ends with an all-dead 10x10
    grid and counter 10, having printed its banner and one line for each
    of the sixteen cells around the block that saw one diagonal
    neighbour. *)
Theorem rev3_main_block_dies :
  Rev3.main [] =
    Ok ({| cur := blank 10 10; next := blank 10 10; gen := 10 |},
        list_byte_of_string "Lifegame" ++ [newline] ++
        concat (map (fun p => Rev3.line_rc p.1 p.2)
                    (list_prod [0; 1; 2; 3] [0; 1; 2; 3]))).
Proof. vm_compute. reflexivity. Qed.

Lemma grid_ext (hh ww : Z) (p q : Z -> Z -> bool) :
  1 <= hh <= max_len -> 1 <= ww <= max_len ->
  (forall i j, 0 <= i < hh -> 0 <= j < ww -> p i j = q i j) ->
  grid hh ww p = grid hh ww q.
Proof.
  intros Hh Hw Hpq.
  apply (field_is_grid {| cs := grid hh ww p; w := ww; h := hh |} q).
  - now apply grid_wf.
  - intros i j [Hi Hj]. cbn [h w] in *. rewrite grid_cell by done.
    now apply Hpq.
Qed.

Lemma beacon_generations (n : Z) (k : nat) :
  6 <= n <= max_len ->
  Nat.iter k step_field {| cs := beacon n; w := n; h := n |} =
    {| cs := grid n n (pattern_at (if Nat.even k then beacon_cells
                                   else beacon_full_cells));
       w := n; h := n |}.
Proof.
  intros Hn. induction k as [|k IH]; [reflexivity|].
  rewrite Nat.iter_succ, IH, Nat.even_succ, <- Nat.negb_even.
  unfold step_field; cbn [cs h w].
  destruct (Nat.even k); cbn [negb]; f_equal; apply grid_ext; try lia;
    intros i j Hi Hj; now apply beacon_torus_step.
Qed.

Lemma lift_eq {S A : Type} (r : result A) (a : A) (s : S) :
  r = Ok a -> lift r s = Ok (a, s).
Proof. now intros ->. Qed.

Lemma rev2_rows : make_pattern 10 = Ok (cs (blank 10 10)).
Proof. reflexivity. Qed.

Lemma rev2_pattern :
  exec (assign 1 1 true ;;; assign 1 2 true ;;; assign 2 1 true ;;;
        assign 3 4 true ;;; assign 4 3 true ;;; assign 4 4 true)
       (cs (blank 10 10)) = Ok (beacon 10).
Proof. vm_compute. reflexivity. Qed.

Lemma rev2_life :
  Rev2.NewLife 10 10 (beacon 10) =
    Ok {| cur := {| cs := beacon 10; w := 10; h := 10 |};
          next := blank 10 10; gen := 0 |}.
Proof. vm_compute. reflexivity. Qed.

(** X27. The program of the second revision, which has no input:
    it shows the beacon for ever.  After [k] ticks it has printed its
    banner and [k] frames, each the output of [clear], the header with
    the number of the generation and the 10x10 grid, and the grid of
    generation [i] is the six-cell phase of the beacon when [i] is even
    and the eight-cell phase when [i] is odd. *)
Theorem rev2_main_shows_the_beacon (clear : list byte) (k : nat) :
  exists l,
    Rev2.main clear k [] =
      Ok (l, list_byte_of_string "Lifegame" ++ [newline] ++
             frames clear {| cs := beacon 10; w := 10; h := 10 |} 0 k) /\
    gen l = wrap (Z.of_nat k) /\
    (forall i : nat,
       Nat.iter i step_field {| cs := beacon 10; w := 10; h := 10 |} =
         {| cs := grid 10 10 (pattern_at (if Nat.even i then beacon_cells
                                          else beacon_full_cells));
            w := 10; h := 10 |}) /\
    cur l = Nat.iter k step_field {| cs := beacon 10; w := 10; h := 10 |}.
Proof.
  assert (Hmax : 6 <= 10 <= max_len) by (unfold max_len; lia).
  destruct (rounds_tick_square clear k
              {| cur := {| cs := beacon 10; w := 10; h := 10 |};
                 next := blank 10 10; gen := 0 |} 10
              ([] ++ list_byte_of_string "Lifegame" ++ [newline]))
    as (l' & Hrun & Hcur & Hg); try reflexivity.
  { split; cbn [cur next]; [apply grid_wf | apply blank_wf]; lia. }
  { cbn. unfold is_int, int_min, int_max. lia. }
  cbn [cur gen] in Hrun, Hcur, Hg.
  exists l'. split; [|split; [exact Hg|split; [|exact Hcur]]].
  - unfold Rev2.main.
    rewrite (bind_Ok (Println (list_byte_of_string "Lifegame")) _ []
               ([] ++ list_byte_of_string "Lifegame" ++ [newline]) tt eq_refl).
    rewrite (bind_Ok _ _ _ _ _ (lift_eq _ _ _ rev2_rows)).
    rewrite (bind_Ok _ _ _ _ _ (lift_eq _ _ _ rev2_pattern)).
    rewrite (bind_Ok _ _ _ _ _ (lift_eq _ _ _ rev2_life)).
    now rewrite Hrun.
  - intros i. now apply beacon_generations.
Qed.
